(** * Streaming telemetry demo: a shallow embedding of [streaming_demo.py]

    The development models the [TelemetryDemo] class of the demo script:
    the string manipulations that pull an interface name out of a
    stringified path, the handling of one update in the SAMPLE and
    ON_CHANGE loops, the loops themselves with their wall-clock cutoff and
    their exception handlers, and the full run with its [finally] block.

    Python strings are modelled as [string] (bytes of the UTF-8 encoding);
    Python exceptions as an explicit outcome type; the attributes of the
    demo object, the log of external calls and printed lines, and the
    scripted answers of [input()] as an explicit state. *)

From Stdlib Require Import ZArith QArith String Ascii List Bool Lia.
From stdpp Require Import base tactics option list strings gmap.

Import ListNotations.
Local Open Scope string_scope.
Local Open Scope list_scope.

(** ** Python string primitives *)

Module PyStr.

(** [s[n:]] *)
Fixpoint drop (n : nat) (s : string) : string :=
  match n, s with
  | O, _ => s
  | S _, EmptyString => EmptyString
  | S k, String _ s' => drop k s'
  end.

(** [sub in s] *)
Fixpoint py_in (sub s : string) : bool :=
  String.prefix sub s ||
  match s with
  | EmptyString => false
  | String _ s' => py_in sub s'
  end.

(** The text before and after the leftmost occurrence of [sep] in [s]
    ([s.partition(sep)] when [sep] occurs), [None] when it does not. *)
Fixpoint cut_first (sep s : string) : option (string * string) :=
  if String.prefix sep s then Some (EmptyString, drop (String.length sep) s)
  else match s with
       | EmptyString => None
       | String c s' =>
           match cut_first sep s' with
           | Some (b, a) => Some (String c b, a)
           | None => None
           end
       end.

(** The first piece of a split: the text before the leftmost separator, or
    the whole text. *)
Definition before_first (sep s : string) : string :=
  match cut_first sep s with
  | None => s
  | Some (b, _) => b
  end.

Fixpoint split_fuel (fuel : nat) (sep s : string) : list string :=
  match fuel with
  | O => [s]
  | S k =>
      match cut_first sep s with
      | None => [s]
      | Some (b, a) => b :: split_fuel k sep a
      end
  end.

(** [s.split(sep)] for a non-empty [sep] (every separator in the source is
    a non-empty literal; Python raises [ValueError] on an empty one).  Each
    cut consumes at least one character, so [length s] cuts suffice. *)
Definition py_split (sep s : string) : list string :=
  split_fuel (S (String.length s)) sep s.

Fixpoint mem_char (c : ascii) (chars : string) : bool :=
  match chars with
  | EmptyString => false
  | String d chars' => Ascii.eqb c d || mem_char c chars'
  end.

Fixpoint lstrip (chars s : string) : string :=
  match s with
  | EmptyString => EmptyString
  | String c s' => if mem_char c chars then lstrip chars s' else s
  end.

Fixpoint rstrip (chars s : string) : string :=
  match s with
  | EmptyString => EmptyString
  | String c s' =>
      match rstrip chars s' with
      | EmptyString => if mem_char c chars then EmptyString else String c EmptyString
      | r => String c r
      end
  end.

(** [s.strip(chars)] *)
Definition py_strip (chars s : string) : string :=
  rstrip chars (lstrip chars s).

Definition upper_char (c : ascii) : ascii :=
  let n := nat_of_ascii c in
  if (97 <=? n)%nat && (n <=? 122)%nat then ascii_of_nat (n - 32) else c.

(** [s.upper()] on the ASCII letters. *)
Fixpoint py_upper (s : string) : string :=
  match s with
  | EmptyString => EmptyString
  | String c s' => String (upper_char c) (py_upper s')
  end.

(** Every character of [s] belongs to [chars]. *)
Fixpoint all_in (chars s : string) : bool :=
  match s with
  | EmptyString => true
  | String c s' => mem_char c chars && all_in chars s'
  end.

Definition first_char (s : string) : option ascii :=
  match s with
  | EmptyString => None
  | String c _ => Some c
  end.

Fixpoint last_char (s : string) : option ascii :=
  match s with
  | EmptyString => None
  | String c EmptyString => Some c
  | String _ s' => last_char s'
  end.

End PyStr.

(** ** Python values, exceptions and outcomes *)

(** The exception classes the handlers of the source tell apart:
    [except Exception] catches [Exc _] only, [except KeyboardInterrupt]
    catches [KeyboardInterrupt] only, a bare [except:] catches all three. *)
Inductive exn : Type :=
| Exc (cls : string)
| KeyboardInterrupt
| SystemExit.

Definition is_Exception (e : exn) : bool :=
  match e with
  | Exc _ => true
  | _ => false
  end.

(** What running a piece of the program gives: a value, a raised
    exception, or no answer at all ([Hang]: the call blocks for ever on the
    transport). *)
Inductive outcome (A : Type) : Type :=
| Ret (a : A)
| Raise (e : exn)
| Hang.
Arguments Ret {A} a.
Arguments Raise {A} e.
Arguments Hang {A}.

#[local] Set Warnings "-register-all".

(** The values that travel in responses.  A float is carried by its exact
    rational value (NaN and the infinities are not represented); a dict has
    string keys and keeps its insertion order. *)
Inductive pyval : Type :=
| VNone
| VBool (b : bool)
| VInt (n : Z)
| VFloat (q : Q)
| VStr (s : string)
| VList (l : list pyval)
| VDict (d : list (string * pyval)).

(** [d.get(key, default)] *)
Fixpoint dict_get (d : list (string * pyval)) (key : string) (default : pyval) : pyval :=
  match d with
  | [] => default
  | (k, v) :: d' => if String.eqb k key then v else dict_get d' key default
  end.

(** [isinstance(v, (int, float))]; [bool] is a subclass of [int]. *)
Definition is_number (v : pyval) : bool :=
  match v with
  | VBool _ | VInt _ | VFloat _ => true
  | _ => false
  end.

Definition Z_of_bool (b : bool) : Z := if b then 1%Z else 0%Z.

(** The exact value of a number. *)
Definition num_value (v : pyval) : Q :=
  match v with
  | VBool b => inject_Z (Z_of_bool b)
  | VInt n => inject_Z n
  | VFloat q => q
  | _ => 0%Q
  end.

(** Truth value of [v] in a condition. *)
Definition py_truthy (v : pyval) : bool :=
  match v with
  | VNone => false
  | VBool b => b
  | VInt n => negb (n =? 0)%Z
  | VFloat q => negb (Qeq_bool q 0)
  | VStr s => negb (String.eqb s EmptyString)
  | VList l => match l with [] => false | _ => true end
  | VDict d => match d with [] => false | _ => true end
  end.

(** [format(v, ',')], the [{value:,}] field of an f-string: numbers are
    rendered, a [str] raises [ValueError] and every other value
    [TypeError].  The rendering itself is not modelled: the printed line
    keeps the number. *)
Definition format_thousands (v : pyval) : outcome pyval :=
  match v with
  | VBool b => Ret (VInt (Z_of_bool b))
  | VInt _ | VFloat _ => Ret v
  | VStr _ => Raise (Exc "ValueError")
  | _ => Raise (Exc "TypeError")
  end.

Definition as_int (v : pyval) : option Z :=
  match v with
  | VBool b => Some (Z_of_bool b)
  | VInt n => Some n
  | _ => None
  end.

(** [a + b]: integer addition, float addition as soon as one side is a
    float, concatenation of two strings or two lists, [TypeError]
    otherwise. *)
Definition py_add (a b : pyval) : outcome pyval :=
  match as_int a, as_int b with
  | Some x, Some y => Ret (VInt (x + y))
  | _, _ =>
      if is_number a && is_number b
      then Ret (VFloat (num_value a + num_value b))
      else match a, b with
           | VStr x, VStr y => Ret (VStr (x ++ y))
           | VList x, VList y => Ret (VList (x ++ y))
           | _, _ => Raise (Exc "TypeError")
           end
  end.

(** [for x in v]: the elements iterated over, [TypeError] when [v] is not
    iterable. *)
Definition py_iter (v : pyval) : outcome (list pyval) :=
  match v with
  | VList l => Ret l
  | VDict d => Ret (map (fun kv => VStr (fst kv)) d)
  | VStr s => Ret (map (fun c => VStr (String c EmptyString)) (list_ascii_of_string s))
  | _ => Raise (Exc "TypeError")
  end.

(** [v[:n]] *)
Definition py_slice_to (n : nat) (v : pyval) : outcome pyval :=
  match v with
  | VList l => Ret (VList (firstn n l))
  | VStr s => Ret (VStr (String.substring 0 n s))
  | _ => Raise (Exc "TypeError")
  end.

(** [len(v)] *)
Definition py_len (v : pyval) : outcome nat :=
  match v with
  | VList l => Ret (length l)
  | VDict d => Ret (length d)
  | VStr s => Ret (String.length s)
  | _ => Raise (Exc "TypeError")
  end.

(** [v.get(key, default)]: only a dict has the method. *)
Definition py_get (v : pyval) (key : string) (default : pyval) : outcome pyval :=
  match v with
  | VDict d => Ret (dict_get d key default)
  | _ => Raise (Exc "AttributeError")
  end.

(** [str(value).upper() == 'UP'].  Only a [str] can satisfy it: the text of
    [None], of a number, of a list or of a dict never upper-cases to
    [UP]. *)
Definition str_upper_is_UP (v : pyval) : bool :=
  match v with
  | VStr s => String.eqb (PyStr.py_upper s) "UP"
  | _ => false
  end.

(** ** Messages of the transport *)

(** One entry of a notification: [update.get('path', _)] and
    [update.get('val', _)].  The path, when present, is the string the
    client library delivers, so [str(path)] is the path itself. *)
Record update : Type := {
  upd_path : option string;
  upd_val : option pyval;
}.

(** [response['update']]; [notif_update] is [notif.get('update', _)]. *)
Record notification : Type := {
  notif_update : option (list update);
}.

(** A message yielded by [subscribe2]: one with an ['update'] key, or any
    other (a sync marker, say). *)
Inductive response : Type :=
| RespUpdate (notif : notification)
| RespOther.

(** An entry of the ['subscription'] list and the request given to
    [subscribe2]. *)
Record sub_entry : Type := {
  se_path : string;
  se_mode : string;
  se_sample_interval : option Z;
}.

Record request : Type := {
  rq_subscription : list sub_entry;
  rq_mode : string;
  rq_encoding : string;
}.

(** How a stream stops yielding: the generator is exhausted, it raises, or
    nothing more ever arrives and the consumer waits for ever. *)
Inductive stream_end : Type :=
| EndOfStream
| StreamRaise (e : exn)
| StreamSilent.

(** What [subscribe2] does in one run: [st_start] is the reading of
    [time.time()] before the loop; each yielded response is paired with the
    reading of [time.time()] taken after it has been handled. *)
Record stream : Type := {
  st_start : Q;
  st_items : list (response * Q);
  st_end : stream_end;
}.

(** The answer of [client.get]: a falsy result ([None]), or a mapping
    whose ['notification'] key may be absent. *)
Record get_result : Type := {
  gr_notification : option (list notification);
}.

(** The world outside the program, one scripted answer per external
    call. *)
Record env : Type := {
  env_construct : outcome unit;
  env_connect : outcome unit;
  env_capabilities : outcome pyval;
  env_get : outcome (option get_result);
  env_subscribe : request -> stream;
  env_close : outcome unit;
}.

(** ** Printed lines and the log *)

(** The lines whose content depends on the run.  Constant banners and
    narration are not recorded. *)
Inductive line : Type :=
| LConnected
| LConnectFailed (e : exn)
| LModel (name version : pyval)
| LMoreModels (n : nat)
| LError (e : exn)
| LCountersHeader
| LRxBytes (v : pyval)
| LTxBytes (v : pyval)
| LRxPackets (v : pyval)
| LTxPackets (v : pyval)
| LErrors (v : pyval)
| LUpdateNo (n : nat)
| LChangeNo (n : nat)
| LRx (iface : string) (mbps : Q) (value : pyval)
| LTx (iface : string) (mbps : Q) (value : pyval)
| LOper (iface : string) (up : bool) (value : pyval)
| LAdmin (iface : string) (up : bool) (value : pyval)
| LReceived (n : nat)
| LNoChanges
| LDetected (n : nat)
| LStopped
| LDemoError (e : exn)
| LClosing.

Inductive event : Type :=
| EConstruct (host : string) (port : Z)
| EConnect
| ECapabilities
| EGet (paths : list string) (encoding : string)
| ESubscribe (rq : request)
| EClose
| EInput
| EPrint (l : line).

(** ** The demo object and the state of a run *)

Record stat_entry : Type := {
  rx_bytes : Z;
  tx_bytes : Z;
  updates : Z;
}.

(** The attributes of a [TelemetryDemo]; [client] is [true] once
    [self.client] holds a client object. *)
Record demo : Type := {
  host : string;
  port : Z;
  client : bool;
  stats : gmap string stat_entry;
}.

(** [inputs] scripts the successive calls of [input()]; once the script is
    used up, [input()] returns. *)
Record state : Type := {
  self : demo;
  log : list event;
  inputs : list (outcome unit);
}.

Definition M (A : Type) : Type := state -> outcome A * state.

Definition ret {A} (a : A) : M A := fun s => (Ret a, s).

Definition raise {A} (e : exn) : M A := fun s => (Raise e, s).

Definition hang {A} : M A := fun s => (Hang, s).

Definition bind {A B} (m : M A) (k : A -> M B) : M B :=
  fun s =>
    match m s with
    | (Ret a, s') => k a s'
    | (Raise e, s') => (Raise e, s')
    | (Hang, s') => (Hang, s')
    end.

Declare Scope demo_scope.
Delimit Scope demo_scope with demo.
Notation "x <- c1 ;; c2" := (bind c1 (fun x => c2))
  (at level 100, c1 at next level, right associativity) : demo_scope.
Notation "c1 ;; c2" := (bind c1 (fun _ => c2))
  (at level 100, right associativity) : demo_scope.
Local Open Scope demo_scope.

(** Lifts the outcome of a pure computation or of an external call. *)
Definition lift {A} (o : outcome A) : M A := fun s => (o, s).

Definition emit (e : event) : M unit :=
  fun s => (Ret tt, {| self := self s; log := log s ++ [e]; inputs := inputs s |}).

Definition print (l : line) : M unit := emit (EPrint l).

(** [input(...)] *)
Definition input : M unit :=
  fun s =>
    let s' := {| self := self s; log := log s ++ [EInput]; inputs := tail (inputs s) |} in
    match inputs s with
    | [] => (Ret tt, s')
    | o :: _ => (o, s')
    end.

Definition get_self : M demo := fun s => (Ret (self s), s).

(** [self.client = <client object>] *)
Definition set_client : M unit :=
  fun s =>
    (Ret tt,
     {| self := {| host := host (self s); port := port (self s);
                   client := true; stats := stats (self s) |};
        log := log s; inputs := inputs s |}).

(** [try: body  except <classes accepted by handles> as e: handler e] *)
Definition try_except {A} (body : M A) (handles : exn -> bool) (handler : exn -> M A) : M A :=
  fun s =>
    match body s with
    | (Raise e, s') => if handles e then handler e s' else (Raise e, s')
    | r => r
    end.

(** [try: body  finally: cleanup].  The cleanup runs after a normal end
    and after an exception; when it ends normally the outcome of the body
    stands, when it raises its exception replaces it. *)
Definition try_finally {A} (body : M A) (cleanup : M unit) : M A :=
  fun s =>
    match body s with
    | (Hang, s') => (Hang, s')
    | (r, s') =>
        match cleanup s' with
        | (Ret _, s'') => (r, s'')
        | (Raise e, s'') => (Raise e, s'')
        | (Hang, s'') => (Hang, s'')
        end
    end.

Definition catch_Exception (e : exn) : bool := is_Exception e.

Definition catch_KeyboardInterrupt (e : exn) : bool :=
  match e with
  | KeyboardInterrupt => true
  | _ => false
  end.

Definition catch_all (e : exn) : bool := true.

(** [for x in xs: body x] *)
Fixpoint for_each {A} (xs : list A) (body : A -> M unit) : M unit :=
  match xs with
  | [] => ret tt
  | x :: xs' => body x ;; for_each xs' body
  end.

(** [try: body  except KeyboardInterrupt: on_interrupt
    except Exception as e: on_exception e].  An exception raised inside a
    handler is not caught by the other clause. *)
Definition try_except2 {A} (body : M A) (on_interrupt : M A) (on_exception : exn -> M A) : M A :=
  try_except body
    (fun e => catch_KeyboardInterrupt e || catch_Exception e)
    (fun e => if catch_KeyboardInterrupt e then on_interrupt else on_exception e).

(** [l[i]] *)
Definition py_item {A} (l : list A) (i : nat) : outcome A :=
  match nth_error l i with
  | Some x => Ret x
  | None => Raise (Exc "IndexError")
  end.

Definition outcome_bind {A B} (o : outcome A) (k : A -> outcome B) : outcome B :=
  match o with
  | Ret a => k a
  | Raise e => Raise e
  | Hang => Hang
  end.

(** ** [TelemetryDemo] *)

Module TelemetryDemo.

Import PyStr.

Definition default_stat : stat_entry := {| rx_bytes := 0; tx_bytes := 0; updates := 0 |}.

(** [__init__]: the [defaultdict] starts empty; [default_stat] is what its
    factory would insert on a first read. *)
Definition init (h : string) (p : Z) : demo :=
  {| host := h; port := p; client := false; stats := ∅ |}.

Definition initial_state (h : string) (p : Z) (script : list (outcome unit)) : state :=
  {| self := init h p; log := []; inputs := script |}.

(** The two characters of the literal given to [strip]: a single and a
    double quote. *)
Definition quote_chars : string :=
  String "'" (String (ascii_of_nat 34) EmptyString).

(** The body of the [try] that extracts the interface name:
    [path_str.split('name=')[1].split(']')[0].split(',')[0].strip(...)]
    when ['name=' in path_str], the literal [Unknown] otherwise. *)
Definition interface_name_try (path_str : string) : outcome string :=
  if py_in "name=" path_str then
    outcome_bind (py_item (py_split "name=" path_str) 1) (fun after =>
    outcome_bind (py_item (py_split "]" after) 0) (fun inside =>
    outcome_bind (py_item (py_split "," inside) 0) (fun first =>
    Ret (py_strip quote_chars first))))
  else Ret "Unknown".

(** The [try]/bare [except] around it. *)
Definition interface_name (path_str : string) : string :=
  match interface_name_try path_str with
  | Ret iface => iface
  | _ => "Interface"
  end.

(** ['name=' in path_str or '[name=' in path_str] *)
Definition has_name_key (path_str : string) : bool :=
  py_in "name=" path_str || py_in "[name=" path_str.

(** The least magnitude that no longer rounds to a finite double. *)
Definition float_overflow : Z := (2 ^ 1024 - 2 ^ 970)%Z.

(** [(value * 8) / 1_000_000 if isinstance(value, (int, float)) else 0].
    The quotient is kept exact (Python rounds it to a double); the true
    division of an integer raises [OverflowError] when the quotient is too
    large for a double. *)
Definition mbps_of (value : pyval) : outcome Q :=
  if is_number value then
    match as_int value with
    | Some n =>
        if (float_overflow * 1000000 <=? Z.abs (n * 8))%Z
        then Raise (Exc "OverflowError")
        else Ret (inject_Z (n * 8) / inject_Z 1000000)%Q
    | None => Ret (num_value value * inject_Z 8 / inject_Z 1000000)%Q
    end
  else Ret 0%Q.

(** The body of [for update in notif.get('update', [])] in the SAMPLE
    loop. *)
Definition sample_update (u : update) : M unit :=
  let path_str := default EmptyString (upd_path u) in
  let value := default (VInt 0) (upd_val u) in
  if has_name_key path_str then
    let iface := interface_name path_str in
    if py_in "in-octets" path_str then
      mbps <- lift (mbps_of value) ;;
      shown <- lift (format_thousands value) ;;
      print (LRx iface mbps shown)
    else if py_in "out-octets" path_str then
      mbps <- lift (mbps_of value) ;;
      shown <- lift (format_thousands value) ;;
      print (LTx iface mbps shown)
    else ret tt
  else ret tt.

(** The same body in the ON_CHANGE loop. *)
Definition on_change_update (u : update) : M unit :=
  let path_str := default EmptyString (upd_path u) in
  let value := default (VStr EmptyString) (upd_val u) in
  if has_name_key path_str then
    let iface := interface_name path_str in
    if py_in "oper-status" path_str then
      print (LOper iface (str_upper_is_UP value) value)
    else if py_in "admin-status" path_str then
      print (LAdmin iface (str_upper_is_UP value) value)
    else ret tt
  else ret tt.

(** [if 'update' in response: ... for update in notif.get('update', [])] *)
Definition handle_response (handle : update -> M unit) (r : response) : M unit :=
  match r with
  | RespUpdate notif => for_each (default [] (notif_update notif)) handle
  | RespOther => ret tt
  end.

(** [time.time() - start_time > 30] *)
Definition past_cutoff (start_time now : Q) : bool :=
  negb (Qle_bool (now - start_time) (inject_Z 30)).

(** [for response in self.client.subscribe2(subscription)]: both demos run
    this loop, with their own announcement of the update and their own
    treatment of an entry.  The cutoff is tested after a response has been
    handled. *)
Fixpoint subscribe_loop (announce : nat -> M unit) (handle : update -> M unit)
    (start_time : Q) (items : list (response * Q)) (fin : stream_end)
    (update_count : nat) : M nat :=
  match items with
  | [] =>
      match fin with
      | EndOfStream => ret update_count
      | StreamRaise e => raise e
      | StreamSilent => hang
      end
  | (r, now) :: rest =>
      let update_count := S update_count in
      announce update_count ;;
      handle_response handle r ;;
      if past_cutoff start_time now then ret update_count
      else subscribe_loop announce handle start_time rest fin update_count
  end.

Definition sample_paths : list string :=
  [ "/interfaces/interface[name=*]/state/counters/in-octets";
    "/interfaces/interface[name=*]/state/counters/out-octets" ].

Definition sample_request : request :=
  {| rq_subscription :=
       map (fun path => {| se_path := path; se_mode := "sample";
                           se_sample_interval := Some 5000000000%Z |})
           sample_paths;
     rq_mode := "stream";
     rq_encoding := "json_ietf" |}.

Definition on_change_paths : list string :=
  [ "/interfaces/interface[name=*]/state/oper-status";
    "/interfaces/interface[name=*]/state/admin-status" ].

Definition on_change_request : request :=
  {| rq_subscription :=
       map (fun path => {| se_path := path; se_mode := "on_change";
                           se_sample_interval := None |})
           on_change_paths;
     rq_mode := "stream";
     rq_encoding := "json_ietf" |}.

Section Methods.

Variable w : env.

(** [connect] *)
Definition connect : M bool :=
  try_except
    (d <- get_self ;;
     emit (EConstruct (host d) (port d)) ;;
     lift (env_construct w) ;;
     set_client ;;
     emit EConnect ;;
     lift (env_connect w) ;;
     print LConnected ;;
     ret true)
    catch_Exception
    (fun e => print (LConnectFailed e) ;; ret false).

(** [demo_capabilities] *)
Definition demo_capabilities : M unit :=
  try_except
    (emit ECapabilities ;;
     capabilities <- lift (env_capabilities w) ;;
     encodings <- lift (py_get capabilities "supported_encodings" (VList [])) ;;
     (if py_truthy encodings
      then lift (py_iter encodings) ;; ret tt
      else ret tt) ;;
     models <- lift (py_get capabilities "supported_models" (VList [])) ;;
     (if py_truthy models
      then
        shown <- lift (outcome_bind (py_slice_to 5 models) py_iter) ;;
        for_each shown (fun model =>
          name <- lift (py_get model "name" (VStr "Unknown")) ;;
          version <- lift (py_get model "version" (VStr "?")) ;;
          print (LModel name version)) ;;
        n <- lift (py_len models) ;;
        if (5 <? n)%nat then print (LMoreModels (n - 5)) else ret tt
      else ret tt) ;;
     input)
    catch_Exception
    (fun e => print (LError e) ;; input).

(** The body of [if isinstance(value, dict)] in [demo_get_single]. *)
Definition show_counters (d : list (string * pyval)) : M unit :=
  print LCountersHeader ;;
  rx <- lift (format_thousands (dict_get d "in-octets" (VInt 0))) ;;
  print (LRxBytes rx) ;;
  tx <- lift (format_thousands (dict_get d "out-octets" (VInt 0))) ;;
  print (LTxBytes tx) ;;
  rxp <- lift (format_thousands (dict_get d "in-unicast-pkts" (VInt 0))) ;;
  print (LRxPackets rxp) ;;
  txp <- lift (format_thousands (dict_get d "out-unicast-pkts" (VInt 0))) ;;
  print (LTxPackets txp) ;;
  errors <- lift (py_add (dict_get d "in-errors" (VInt 0)) (dict_get d "out-errors" (VInt 0))) ;;
  print (LErrors errors).

Definition get_single_path : string :=
  "/interfaces/interface[name=Ethernet1]/state/counters".

(** [demo_get_single] *)
Definition demo_get_single : M unit :=
  try_except
    (emit (EGet [get_single_path] "json_ietf") ;;
     result <- lift (env_get w) ;;
     match result with
     | Some {| gr_notification := Some notifs |} =>
         for_each notifs (fun notif =>
           for_each (default [] (notif_update notif)) (fun u =>
             match upd_val u with
             | Some (VDict d) => show_counters d
             | _ => ret tt
             end))
     | _ => ret tt
     end ;;
     input)
    catch_Exception
    (fun e => print (LError e) ;; input).

(** The [try] body shared in shape by the two streaming demos: issue the
    request, run the loop, report, wait for Enter. *)
Definition demo_subscribe_sample : M unit :=
  try_except2
    (let subscription := sample_request in
     emit (ESubscribe subscription) ;;
     let st := env_subscribe w subscription in
     update_count <-
       subscribe_loop (fun n => print (LUpdateNo n)) sample_update
         (st_start st) (st_items st) (st_end st) 0 ;;
     print (LReceived update_count) ;;
     input)
    (print LStopped ;; input)
    (fun e => print (LError e) ;; input).

Definition demo_subscribe_on_change : M unit :=
  try_except2
    (let subscription := on_change_request in
     emit (ESubscribe subscription) ;;
     let st := env_subscribe w subscription in
     update_count <-
       subscribe_loop (fun n => print (LChangeNo n)) on_change_update
         (st_start st) (st_items st) (st_end st) 0 ;;
     (if (update_count =? 0)%nat then print LNoChanges
      else print (LDetected update_count)) ;;
     input)
    (print LStopped ;; input)
    (fun e => print (LError e) ;; input).

(** [demo_comparison]: constant text, then [input()]. *)
Definition demo_comparison : M unit := input.

(** The [finally] block of [run_full_demo]. *)
Definition close_client : M unit :=
  d <- get_self ;;
  if client d then
    print LClosing ;;
    try_except (emit EClose ;; lift (env_close w)) catch_all (fun _ => ret tt)
  else ret tt.

(** [run_full_demo] *)
Definition run_full_demo : M unit :=
  connected <- connect ;;
  if negb connected then ret tt
  else
    try_finally
      (try_except
         (demo_capabilities ;;
          demo_get_single ;;
          demo_subscribe_sample ;;
          demo_subscribe_on_change ;;
          demo_comparison)
         catch_Exception
         (fun e => print (LDemoError e)))
      close_client.

(** [main] *)
Definition main (script : list (outcome unit)) : outcome unit * state :=
  run_full_demo (initial_state "172.20.20.11" 6030 script).

End Methods.

End TelemetryDemo.

(** ** Observations on a run *)

(** The calls made on the client object. *)
Definition is_client_call (e : event) : bool :=
  match e with
  | EConstruct _ _ | EConnect | ECapabilities | EGet _ _ | ESubscribe _ | EClose => true
  | EInput | EPrint _ => false
  end.

Definition client_calls (evs : list event) : list event :=
  filter (fun e => is_client_call e = true) evs.

Definition is_close (e : event) : bool :=
  match e with
  | EClose => true
  | _ => false
  end.

Definition is_io (e : event) : bool := negb (is_client_call e).

(** The state after one more event has been logged. *)
Definition logged (s : state) (evs : list event) : state :=
  {| self := self s; log := log s ++ evs; inputs := inputs s |}.

(** The events a computation that ignores its state logs, read off a run
    from the blank state. *)
Definition blank : state :=
  {| self := TelemetryDemo.init EmptyString 0; log := []; inputs := [] |}.

Definition events_of {A} (m : M A) : list event := log (snd (m blank)).

Definition result_of {A} (m : M A) : outcome A := fst (m blank).

(** The operations of the demo object, and the state each leaves. *)
Inductive operation : Type :=
| OpConnect
| OpCapabilities
| OpGetSingle
| OpSubscribeSample
| OpSubscribeOnChange
| OpComparison
| OpRunFullDemo.

Definition exec (op : operation) (w : env) (s : state) : state :=
  match op with
  | OpConnect => snd (TelemetryDemo.connect w s)
  | OpCapabilities => snd (TelemetryDemo.demo_capabilities w s)
  | OpGetSingle => snd (TelemetryDemo.demo_get_single w s)
  | OpSubscribeSample => snd (TelemetryDemo.demo_subscribe_sample w s)
  | OpSubscribeOnChange => snd (TelemetryDemo.demo_subscribe_on_change w s)
  | OpComparison => snd (TelemetryDemo.demo_comparison s)
  | OpRunFullDemo => snd (TelemetryDemo.run_full_demo w s)
  end.

(** A computation of the demo keeps the object within [R] of where it
    found it and only adds events that satisfy [P] to the log. *)
Definition frames (R : demo -> demo -> Prop) (P : event -> Prop) {A} (m : M A) : Prop :=
  forall s,
    R (self s) (self (snd (m s))) /\
    exists evs, log (snd (m s)) = log s ++ evs /\ Forall P evs.

(** A computation that neither reads the state nor touches anything but
    the log: its result and the events it adds are the same from every
    state. *)
Definition pure_logger {A} (m : M A) : Prop :=
  forall s, m s = (result_of m, logged s (events_of m)).

Definition same_stats (d d' : demo) : Prop := stats d' = stats d.

Definition any_event (e : event) : Prop := True.

Definition not_close (e : event) : Prop := is_close e = false.

(** The world [w] with another answer to [close]. *)
Definition with_close (w : env) (o : outcome unit) : env :=
  {| env_construct := env_construct w;
     env_connect := env_connect w;
     env_capabilities := env_capabilities w;
     env_get := env_get w;
     env_subscribe := env_subscribe w;
     env_close := o |}.

(** The events of the rounds of the loop over [items], each one handled to
    its end: the announcement of the update, then what its entries
    print. *)
Fixpoint rounds (announce : nat -> M unit) (handle : update -> M unit)
    (n : nat) (items : list (response * Q)) : list event :=
  match items with
  | [] => []
  | (r, _) :: items' =>
      events_of (announce (S n))
        ++ events_of (TelemetryDemo.handle_response handle r)
        ++ rounds announce handle (S n) items'
  end.

(** No reading of the clock in [items] is past the cutoff. *)
Definition within_cutoff (start_time : Q) (items : list (response * Q)) : Prop :=
  Forall (fun it => TelemetryDemo.past_cutoff start_time (snd it) = false) items.

(** Every response of [items] is handled without an exception. *)
Definition all_handled (handle : update -> M unit) (items : list (response * Q)) : Prop :=
  Forall (fun it => result_of (TelemetryDemo.handle_response handle (fst it)) = Ret tt) items.

(** An outcome that is a value or an exception of the [Exception]
    family. *)
Definition ordinary {A} (o : outcome A) : Prop :=
  match o with
  | Ret _ => True
  | Raise e => is_Exception e = true
  | Hang => False
  end.

(** The next call of [input()] returns. *)
Definition next_input_returns (s : state) : Prop :=
  match inputs s with
  | [] => True
  | o :: _ => o = Ret tt
  end.

(** No scripted [input()] raises an exception of the [Exception] family
    (an end of file, say). *)
Definition quiet_inputs (s : state) : Prop :=
  Forall (fun o => forall e, o = Raise e -> is_Exception e = false) (inputs s).

(** A computation keeps the relation [I] between the state it starts from
    and the state it leaves. *)
Definition preserves (I : state -> state -> Prop) {A} (m : M A) : Prop :=
  forall s, I s (snd (m s)).

(** The outcome of an operation of the demo object. *)
Definition outcome_of (op : operation) (w : env) (s : state) : outcome unit :=
  match op with
  | OpConnect =>
      match fst (TelemetryDemo.connect w s) with
      | Ret _ => Ret tt
      | Raise e => Raise e
      | Hang => Hang
      end
  | OpCapabilities => fst (TelemetryDemo.demo_capabilities w s)
  | OpGetSingle => fst (TelemetryDemo.demo_get_single w s)
  | OpSubscribeSample => fst (TelemetryDemo.demo_subscribe_sample w s)
  | OpSubscribeOnChange => fst (TelemetryDemo.demo_subscribe_on_change w s)
  | OpComparison => fst (TelemetryDemo.demo_comparison s)
  | OpRunFullDemo => fst (TelemetryDemo.run_full_demo w s)
  end.

(** The calls the four demos that talk to the device make, in the order of
    [run_full_demo]. *)
Definition demo_calls : list event :=
  [ ECapabilities;
    EGet [TelemetryDemo.get_single_path] "json_ietf";
    ESubscribe TelemetryDemo.sample_request;
    ESubscribe TelemetryDemo.on_change_request ].

(** The printed form of a model entry of the capabilities. *)
Definition model_line (model : pyval) : event :=
  match model with
  | VDict d => EPrint (LModel (dict_get d "name" (VStr "Unknown"))
                              (dict_get d "version" (VStr "?")))
  | _ => EPrint (LModel VNone VNone)
  end.

Definition is_dict (v : pyval) : bool :=
  match v with
  | VDict _ => true
  | _ => false
  end.

(** The value of an entry is a mapping. *)
Definition has_dict_value (u : update) : bool :=
  match upd_val u with
  | Some (VDict _) => true
  | _ => false
  end.

(** The target stays the same and a stored client object stays stored. *)
Definition same_target (d d' : demo) : Prop :=
  host d' = host d /\ port d' = port d /\ (client d = true -> client d' = true).

(** The state after a [connect] that stored a client object. *)
Definition with_client (s : state) (evs : list event) : state :=
  {| self := {| host := host (self s); port := port (self s);
                client := true; stats := stats (self s) |};
     log := log s ++ evs;
     inputs := inputs s |}.

(** From every state, [m] leaves the object as it is and makes exactly
    the calls [cs] on the client. *)
Definition calls_exactly (cs : list event) (m : M unit) : Prop :=
  forall s,
    self (snd (m s)) = self s /\
    exists evs, log (snd (m s)) = log s ++ evs /\ client_calls evs = cs.

(** From every state, [m] leaves the object as it is and makes the call
    [c], then the first few of the calls [cs], in their order. *)
Definition calls_from (c : event) (cs : list event) (m : M unit) : Prop :=
  forall s,
    self (snd (m s)) = self s /\
    exists evs k, log (snd (m s)) = log s ++ evs /\ client_calls evs = c :: firstn k cs.

(** Scripted inputs that raise nothing of the [Exception] family stay so. *)
Definition stays_quiet (s s' : state) : Prop := quiet_inputs s -> quiet_inputs s'.

(** [sub] occurs in [s]. *)
Definition occurs (sub s : string) : Prop :=
  exists pre post : string, s = (pre ++ sub ++ post)%string.

(** [s] begins with one of the three texts at which the extraction of the
    interface name stops. *)
Definition at_stop (s : string) : Prop :=
  s = EmptyString \/
  (exists t : string, s = ("]" ++ t)%string) \/
  (exists t : string, s = ("," ++ t)%string) \/
  (exists t : string, s = ("name=" ++ t)%string).

(** ** The specification's reading, for comparison with the source *)

Module Spec.

Import PyStr.

(** A path as the specification sees it: named segments, each with key
    predicates; in a pattern the value [*] of a key is the wildcard. *)
Record segment : Type := {
  seg_name : string;
  seg_keys : list (string * string);
}.

Definition bindings : Type := list (string * string).

Fixpoint lookup_key (k : string) (keys : list (string * string)) : option string :=
  match keys with
  | [] => None
  | (k', v) :: keys' => if String.eqb k k' then Some v else lookup_key k keys'
  end.

(** The keys a pattern segment names must be present in the concrete
    segment; a wildcard binds the concrete value, a literal value must be
    equal to it. *)
Fixpoint match_keys (pkeys ckeys : list (string * string)) : option bindings :=
  match pkeys with
  | [] => Some []
  | (k, v) :: pkeys' =>
      match lookup_key k ckeys, match_keys pkeys' ckeys with
      | Some cv, Some bs =>
          if String.eqb v "*" then Some ((k, cv) :: bs)
          else if String.eqb v cv then Some bs
          else None
      | _, _ => None
      end
  end.

(** [match(pattern, concrete_path)] as section 4.1 words it: segment by
    segment, equal names, keys matched, none on a length mismatch. *)
Fixpoint match_spec (P C : list segment) : option bindings :=
  match P, C with
  | [], [] => Some []
  | p :: P', c :: C' =>
      if String.eqb (seg_name p) (seg_name c) then
        match match_keys (seg_keys p) (seg_keys c), match_spec P' C' with
        | Some bs, Some bs' => Some (bs ++ bs')
        | _, _ => None
        end
      else None
  | _, _ => None
  end.

Definition render_keys (keys : list (string * string)) : string :=
  fold_right (fun kv acc => ("[" ++ fst kv ++ "=" ++ snd kv ++ "]" ++ acc)%string)
             EmptyString keys.

(** The textual form of a path, as in the path literals of the source. *)
Definition render_path (p : list segment) : string :=
  fold_right (fun sg acc => ("/" ++ seg_name sg ++ render_keys (seg_keys sg) ++ acc)%string)
             EmptyString p.

Definition plain (name : string) : segment :=
  {| seg_name := name; seg_keys := [] |}.

(** The first SAMPLE pattern of the source, parsed. *)
Definition in_octets_pattern : list segment :=
  [ plain "interfaces";
    {| seg_name := "interface"; seg_keys := [("name", "*")] |};
    plain "state"; plain "counters"; plain "in-octets" ].

(** The interface name as the claim words it: the text between the first
    ['name='] and the first [']'] after it, cut at the first [','], quotes
    stripped; [None] when one of the two marks is missing. *)
Definition claimed_interface_name (path_str : string) : option string :=
  match cut_first "name=" path_str with
  | Some (_, rest) =>
      match cut_first "]" rest with
      | Some (inside, _) =>
          Some (py_strip TelemetryDemo.quote_chars
                  (match cut_first "," inside with
                   | Some (first, _) => first
                   | None => inside
                   end))
      | None => None
      end
  | None => None
  end.

End Spec.

(** ** Scenarios *)

Module Scenario.

Definition counter_path : string :=
  "/interfaces/interface[name=Ethernet1]/state/counters/in-octets".

(** A response that carries one entry. *)
Definition one_update (path : string) (v : pyval) : response :=
  RespUpdate {| notif_update := Some [ {| upd_path := Some path; upd_val := Some v |} ] |}.

Definition is_sample_request (rq : request) : bool :=
  match rq_subscription rq with
  | e :: _ => String.eqb (se_mode e) "sample"
  | [] => false
  end.

(** A device that answers every call, with the given streams for the
    SAMPLE and the ON_CHANGE subscriptions. *)
Definition device (sample on_change : stream) : env :=
  {| env_construct := Ret tt;
     env_connect := Ret tt;
     env_capabilities := Ret (VDict []);
     env_get := Ret None;
     env_subscribe := fun rq => if is_sample_request rq then sample else on_change;
     env_close := Ret tt |}.

Definition ended (items : list (response * Q)) : stream :=
  {| st_start := 0; st_items := items; st_end := EndOfStream |}.

(** A text where a counter is expected, then a well-formed update. *)
Definition malformed_then_valid : stream :=
  ended [ (one_update counter_path (VStr "abc"), 5%Q);
          (one_update counter_path (VInt 1542), 10%Q) ].

(** One update, then the transport fails. *)
Definition disconnecting : stream :=
  {| st_start := 0;
     st_items := [ (one_update counter_path (VInt 1542), 5%Q) ];
     st_end := StreamRaise (Exc "RpcError") |}.

(** One update after five seconds, then nothing more arrives. *)
Definition falls_silent : stream :=
  {| st_start := 0;
     st_items := [ (one_update counter_path (VInt 1542), 5%Q) ];
     st_end := StreamSilent |}.

(** Six updates in quick succession: one more than five over a buffer of
    one. *)
Definition burst : stream :=
  ended (map (fun n => (one_update counter_path (VInt n), 1%Q)) [1; 2; 3; 4; 5; 6]%Z).

(** A concrete path with two segments, neither of which the subscribed
    pattern has. *)
Definition stray_path : list Spec.segment :=
  [ {| Spec.seg_name := "x"; Spec.seg_keys := [("name", "Ethernet1")] |};
    Spec.plain "in-octets" ].

Definition start_state : state := TelemetryDemo.initial_state "172.20.20.11" 6030 [].

(** One update, then Ctrl+C while the demo waits for the next. *)
Definition interrupted : stream :=
  {| st_start := 0;
     st_items := [ (one_update counter_path (VInt 1542), 5%Q) ];
     st_end := StreamRaise KeyboardInterrupt |}.

(** Three messages without an ['update'] key. *)
Definition sync_only : stream :=
  ended [ (RespOther, 1%Q); (RespOther, 2%Q); (RespOther, 3%Q) ].

End Scenario.

(** * Properties *)

(** ** Strings *)

Module PyStrFacts.

Import PyStr.

#[local] Arguments String.append !s1 s2 : simpl nomatch.

Lemma append_nil_r (s : string) : (s ++ EmptyString)%string = s.
Proof. induction s as [|c s IH]; simpl; congruence. Qed.

Lemma append_assoc (a b c : string) : ((a ++ b) ++ c)%string = (a ++ b ++ c)%string.
Proof. induction a as [|x a IH]; simpl; congruence. Qed.

Lemma length_append (a b : string) :
  String.length (a ++ b) = String.length a + String.length b.
Proof. induction a as [|x a IH]; simpl; congruence. Qed.

Lemma prefix_spec (a s : string) :
  String.prefix a s = true <-> exists t : string, s = (a ++ t)%string.
Proof.
  revert s; induction a as [|x a IH]; intros s.
  - split; [intros _; exists s; reflexivity | intros _; destruct s; reflexivity].
  - destruct s as [|y s]; simpl.
    + split; [discriminate | intros [t Ht]; discriminate].
    + destruct (ascii_dec x y) as [->|Hne].
      * rewrite IH. split; intros [t Ht]; exists t; congruence.
      * split; [discriminate | intros [t Ht]; congruence].
Qed.

Lemma drop_append (a t : string) : drop (String.length a) (a ++ t) = t.
Proof. induction a as [|x a IH]; simpl; [destruct t; reflexivity | exact IH]. Qed.

Lemma occurs_here (sub t : string) : occurs sub (sub ++ t).
Proof. exists EmptyString, t. reflexivity. Qed.

Lemma occurs_later (sub s : string) (c : ascii) : occurs sub s -> occurs sub (String c s).
Proof. intros (pre & post & ->). exists (String c pre), post. reflexivity. Qed.

(** The model of [in] decides occurrence. *)
Lemma py_in_occurs (sub s : string) : py_in sub s = true <-> occurs sub s.
Proof.
  induction s as [|c s IH]; cbn [py_in].
  - rewrite orb_false_r, prefix_spec. split.
    + intros [t ->]. apply occurs_here.
    + intros (pre & post & H). destruct pre; simpl in H.
      * exists post. exact H.
      * discriminate.
  - rewrite orb_true_iff, prefix_spec, IH. split.
    + intros [[t ->] | H]; [apply occurs_here | apply occurs_later, H].
    + intros (pre & post & H). destruct pre as [|x pre]; simpl in H.
      * left. exists post. exact H.
      * right. injection H as _ ->. exists pre, post. reflexivity.
Qed.

Lemma py_in_false (sub s : string) : py_in sub s = false <-> ~ occurs sub s.
Proof.
  rewrite <- py_in_occurs. destruct (py_in sub s); split; congruence.
Qed.

Lemma prefix_drop (sep s : string) :
  String.prefix sep s = true -> s = (sep ++ drop (String.length sep) s)%string.
Proof.
  intros [t Ht]%prefix_spec. subst s. rewrite drop_append. reflexivity.
Qed.

(** [cut_first] cuts at an occurrence, and at the leftmost one. *)
Lemma cut_first_Some (sep s b a : string) :
  cut_first sep s = Some (b, a) ->
  s = (b ++ sep ++ a)%string /\
  forall pre post : string, s = (pre ++ sep ++ post)%string ->
    String.length b <= String.length pre.
Proof.
  revert b a; induction s as [|c s IH]; intros b a; cbn [cut_first].
  - destruct (String.prefix sep EmptyString) eqn:Hp; [|discriminate].
    intros [= <- <-]. split; [apply (prefix_drop _ _ Hp)|intros; simpl; lia].
  - destruct (String.prefix sep (String c s)) eqn:Hp.
    + intros [= <- <-]. split; [apply (prefix_drop _ _ Hp)|intros; simpl; lia].
    + destruct (cut_first sep s) as [[b' a']|] eqn:Hc; [|discriminate].
      intros [= <- <-]. destruct (IH _ _ eq_refl) as [Hs Hmin].
      split; [simpl; congruence|].
      intros pre post H. destruct pre as [|x pre]; simpl in H.
      * assert (String.prefix sep (String c s) = true) by (apply prefix_spec; eauto).
        congruence.
      * injection H as _ H. simpl. apply Hmin in H. lia.
Qed.

Lemma cut_first_None (sep s : string) :
  cut_first sep s = None <-> py_in sep s = false.
Proof.
  induction s as [|c s IH]; cbn [cut_first py_in].
  - destruct (String.prefix sep EmptyString); simpl; split; congruence.
  - destruct (String.prefix sep (String c s)); simpl; [split; congruence|].
    rewrite <- IH. destruct (cut_first sep s) as [[? ?]|]; split; congruence.
Qed.

Lemma cut_first_is_Some (sep s : string) :
  py_in sep s = true -> exists b a, cut_first sep s = Some (b, a).
Proof.
  intros H. destruct (cut_first sep s) as [[b a]|] eqn:Hc; [eauto|].
  apply cut_first_None in Hc. congruence.
Qed.

(** What stands before a cut holds no occurrence of the separator. *)
Lemma cut_first_before (sep s b a : string) :
  sep <> EmptyString -> cut_first sep s = Some (b, a) -> ~ occurs sep b.
Proof.
  intros Hne Hc (pre & post & Hb).
  apply cut_first_Some in Hc as [Hs Hmin].
  specialize (Hmin pre (post ++ sep ++ a)%string).
  rewrite Hs, Hb, !append_assoc in Hmin. specialize (Hmin eq_refl).
  rewrite !length_append in Hmin.
  destruct sep; [congruence|simpl in Hmin; lia].
Qed.

Lemma cut_first_shorter (sep s b a : string) :
  sep <> EmptyString -> cut_first sep s = Some (b, a) ->
  String.length a < String.length s.
Proof.
  intros Hne Hc. apply cut_first_Some in Hc as [-> _].
  rewrite !length_append. destruct sep; [congruence|simpl; lia].
Qed.

Lemma split_fuel_enough (sep : string) (n m : nat) (s : string) :
  sep <> EmptyString -> String.length s < n -> String.length s < m ->
  split_fuel n sep s = split_fuel m sep s.
Proof.
  intros Hne. revert m s; induction n as [|n IH]; intros m s Hn Hm; [lia|].
  destruct m as [|m]; [lia|]. simpl.
  destruct (cut_first sep s) as [[b a]|] eqn:Hc; [|reflexivity].
  pose proof (cut_first_shorter _ _ _ _ Hne Hc).
  f_equal. apply IH; lia.
Qed.

(** The equation of [split]: cut at the leftmost separator and go on with
    what follows it. *)
Lemma py_split_eq (sep s : string) :
  sep <> EmptyString ->
  py_split sep s =
    match cut_first sep s with
    | None => [s]
    | Some (b, a) => b :: py_split sep a
    end.
Proof.
  intros Hne. unfold py_split at 1. cbn [split_fuel].
  destruct (cut_first sep s) as [[b a]|] eqn:Hc; [|reflexivity].
  pose proof (cut_first_shorter _ _ _ _ Hne Hc).
  unfold py_split. f_equal. apply split_fuel_enough; [assumption|lia|lia].
Qed.

Lemma py_split_head (sep s : string) :
  sep <> EmptyString -> exists rest, py_split sep s = before_first sep s :: rest.
Proof.
  intros Hne. rewrite py_split_eq by assumption. unfold before_first.
  destruct (cut_first sep s) as [[b a]|]; eauto.
Qed.

(** [before_first] gives a prefix free of the separator, and what follows
    it is nothing or begins with the separator. *)
Lemma before_first_spec (sep s : string) :
  sep <> EmptyString ->
  ~ occurs sep (before_first sep s) /\
  exists post : string, s = (before_first sep s ++ post)%string /\
    (post = EmptyString \/ exists t : string, post = (sep ++ t)%string).
Proof.
  intros Hne. unfold before_first.
  destruct (cut_first sep s) as [[b a]|] eqn:Hc.
  - split; [eapply cut_first_before; eassumption|].
    apply cut_first_Some in Hc as [-> _]. eauto.
  - split; [apply py_in_false, cut_first_None, Hc|].
    exists EmptyString. rewrite append_nil_r. auto.
Qed.

Lemma occurs_in_prefix (sub a b : string) : occurs sub a -> occurs sub (a ++ b).
Proof.
  intros (pre & post & ->). exists pre, (post ++ b)%string.
  rewrite !append_assoc. reflexivity.
Qed.

Lemma lstrip_spec (chars s : string) :
  exists l : string,
    s = (l ++ lstrip chars s)%string /\ all_in chars l = true /\
    forall c, first_char (lstrip chars s) = Some c -> mem_char c chars = false.
Proof.
  induction s as [|c s (l & Hl & Hall & Hfirst)]; cbn [lstrip].
  - exists EmptyString. repeat split. discriminate.
  - destruct (mem_char c chars) eqn:Hc.
    + exists (String c l). cbn [all_in]. rewrite Hc, Hall. simpl.
      repeat split; [congruence | exact Hfirst].
    + exists EmptyString. repeat split. intros c' [= <-]. exact Hc.
Qed.

Lemma rstrip_spec (chars s : string) :
  exists t : string,
    s = (rstrip chars s ++ t)%string /\ all_in chars t = true /\
    forall c, last_char (rstrip chars s) = Some c -> mem_char c chars = false.
Proof.
  induction s as [|c s (t & Ht & Hall & Hlast)]; cbn [rstrip].
  - exists EmptyString. repeat split. discriminate.
  - destruct (rstrip chars s) as [|d r] eqn:Hr.
    + destruct (mem_char c chars) eqn:Hc.
      * exists (String c t). cbn [all_in]. rewrite Hc, Hall. simpl in *.
        repeat split; [congruence | discriminate].
      * exists t. simpl in *. repeat split; [congruence | assumption |].
        intros c' [= <-]. exact Hc.
    + exists t. simpl in *. repeat split; [congruence | assumption | exact Hlast].
Qed.

Lemma rstrip_first_char (chars s : string) (c : ascii) :
  first_char (rstrip chars s) = Some c -> first_char s = Some c.
Proof.
  destruct s as [|d s]; cbn [rstrip]; [discriminate|].
  destruct (rstrip chars s); [destruct (mem_char d chars)|]; simpl; congruence.
Qed.

(** [strip] removes a run of the given characters at each end, and what is
    left neither begins nor ends with one of them. *)
Lemma py_strip_spec (chars s : string) :
  exists l t : string,
    s = (l ++ py_strip chars s ++ t)%string /\
    all_in chars l = true /\ all_in chars t = true /\
    (forall c, first_char (py_strip chars s) = Some c -> mem_char c chars = false) /\
    (forall c, last_char (py_strip chars s) = Some c -> mem_char c chars = false).
Proof.
  unfold py_strip.
  destruct (lstrip_spec chars s) as (l & Hl & Hall & Hfirst).
  destruct (rstrip_spec chars (lstrip chars s)) as (t & Ht & Hallt & Hlast).
  exists l, t. repeat split; try assumption.
  - rewrite <- Ht. exact Hl.
  - intros c Hc. apply Hfirst. eapply rstrip_first_char. exact Hc.
Qed.

End PyStrFacts.

(** ** The interface name *)

Module InterfaceName.

Import PyStr PyStrFacts TelemetryDemo.

#[local] Arguments String.append !s1 s2 : simpl nomatch.

Lemma name_sep_nonempty : "name=" <> EmptyString.
Proof. discriminate. Qed.

Lemma bracket_sep_nonempty : "]" <> EmptyString.
Proof. discriminate. Qed.

Lemma comma_sep_nonempty : "," <> EmptyString.
Proof. discriminate. Qed.

#[local] Hint Resolve name_sep_nonempty bracket_sep_nonempty comma_sep_nonempty : core.

Lemma py_item_split_head (sep s : string) :
  sep <> EmptyString -> py_item (py_split sep s) 0 = Ret (before_first sep s).
Proof.
  intros Hne. destruct (py_split_head sep s Hne) as [rest ->]. reflexivity.
Qed.

(** The chain of splits, computed: the text after the first [name=], cut
    at the next [name=], then at the first bracket, then at the first
    comma. *)
Lemma interface_name_try_eq (path_str : string) :
  py_in "name=" path_str = true ->
  exists pre rest,
    cut_first "name=" path_str = Some (pre, rest) /\
    interface_name_try path_str =
      Ret (py_strip quote_chars
             (before_first "," (before_first "]" (before_first "name=" rest)))).
Proof.
  intros Hin. destruct (cut_first_is_Some _ _ Hin) as (pre & rest & Hc).
  exists pre, rest. split; [exact Hc|].
  unfold interface_name_try. rewrite Hin.
  rewrite (py_split_eq "name=" path_str) by auto. rewrite Hc.
  destruct (py_split_head "name=" rest) as [more ->]; [auto|].
  cbn [py_item nth_error outcome_bind].
  rewrite py_item_split_head by auto. cbn [outcome_bind].
  rewrite py_item_split_head by auto. reflexivity.
Qed.

(** The extraction is total: it never takes the bare [except]. *)
Lemma interface_name_try_total (path_str : string) :
  exists iface, interface_name_try path_str = Ret iface.
Proof.
  destruct (py_in "name=" path_str) eqn:Hin.
  - destruct (interface_name_try_eq _ Hin) as (? & ? & _ & ->). eauto.
  - unfold interface_name_try. rewrite Hin. eauto.
Qed.

Lemma at_stop_app (a b : string) :
  (a = EmptyString \/ exists t : string, a = ("," ++ t)%string \/ a = ("]" ++ t)%string
                                      \/ a = ("name=" ++ t)%string) ->
  at_stop b -> at_stop (a ++ b).
Proof.
  intros [-> | [t [-> | [-> | ->]]]] Hb; [exact Hb|..]; right.
  - right; left. exists (t ++ b)%string. reflexivity.
  - left. exists (t ++ b)%string. reflexivity.
  - right; right. exists (t ++ b)%string. reflexivity.
Qed.

(** C9 (amended): when [name=] occurs in the stringified path, the
    extracted interface name is the text [mid] that follows the first
    [name=] and runs up to the nearest of: the next [name=], the first
    closing bracket, the first comma, or the end of the string; quote
    characters are stripped from both ends of it.  The extraction returns
    without raising, so the placeholder of the bare [except] is never
    produced. *)
Theorem interface_name_characterised (path_str : string) :
  occurs "name=" path_str ->
  exists pre mid post : string,
    path_str = (pre ++ "name=" ++ mid ++ post)%string /\
    (forall p q : string, path_str = (p ++ "name=" ++ q)%string ->
       String.length pre <= String.length p) /\
    ~ occurs "name=" mid /\ ~ occurs "]" mid /\ ~ occurs "," mid /\
    at_stop post /\
    interface_name_try path_str = Ret (interface_name path_str) /\
    exists l t : string,
      mid = (l ++ interface_name path_str ++ t)%string /\
      all_in quote_chars l = true /\ all_in quote_chars t = true /\
      (forall c, first_char (interface_name path_str) = Some c ->
         mem_char c quote_chars = false) /\
      (forall c, last_char (interface_name path_str) = Some c ->
         mem_char c quote_chars = false).
Proof.
  intros Hin%py_in_occurs.
  destruct (interface_name_try_eq _ Hin) as (pre & rest & Hc & Htry).
  apply cut_first_Some in Hc as [Hs Hmin].
  remember (before_first "name=" rest) as x eqn:Ex.
  remember (before_first "]" x) as y eqn:Ey.
  remember (before_first "," y) as z eqn:Ez.
  destruct (before_first_spec "name=" rest name_sep_nonempty) as (Hx & p1 & Hrest & Hp1).
  destruct (before_first_spec "]" x bracket_sep_nonempty) as (Hy & p2 & Hxy & Hp2).
  destruct (before_first_spec "," y comma_sep_nonempty) as (Hz & p3 & Hyz & Hp3).
  rewrite <- Ex in Hx, Hrest. rewrite <- Ey in Hy, Hxy. rewrite <- Ez in Hz, Hyz.
  assert (Hname : interface_name path_str = py_strip quote_chars z)
    by (unfold interface_name; rewrite Htry; reflexivity).
  exists pre, z, (p3 ++ p2 ++ p1)%string. repeat apply conj.
  - rewrite Hs, Hrest, Hxy, Hyz, !append_assoc. reflexivity.
  - exact Hmin.
  - intros Ho. apply Hx. rewrite Hxy, Hyz. do 2 apply occurs_in_prefix. exact Ho.
  - intros Ho. apply Hy. rewrite Hyz. apply occurs_in_prefix. exact Ho.
  - exact Hz.
  - apply at_stop_app; [destruct Hp3 as [?|[t ?]]; eauto|].
    apply at_stop_app; [destruct Hp2 as [?|[t ?]]; eauto|].
    destruct Hp1 as [->|[t ->]]; [left; reflexivity|].
    right; right; right. eauto.
  - rewrite Htry, Hname. reflexivity.
  - rewrite Hname. apply py_strip_spec.
Qed.

(** The extraction applied to a path of the kind the device sends. *)
Lemma interface_name_characterised_witness :
  occurs "name=" "/interfaces/interface[name=Ethernet1]/state/counters/in-octets" /\
  exists pre mid post : string,
    "/interfaces/interface[name=Ethernet1]/state/counters/in-octets"
      = (pre ++ "name=" ++ mid ++ post)%string /\
    (forall p q : string,
       "/interfaces/interface[name=Ethernet1]/state/counters/in-octets"
         = (p ++ "name=" ++ q)%string ->
       String.length pre <= String.length p) /\
    ~ occurs "name=" mid /\ ~ occurs "]" mid /\ ~ occurs "," mid /\
    at_stop post /\
    interface_name_try "/interfaces/interface[name=Ethernet1]/state/counters/in-octets"
      = Ret "Ethernet1" /\
    exists l t : string,
      mid = (l ++ "Ethernet1" ++ t)%string /\
      all_in quote_chars l = true /\ all_in quote_chars t = true /\
      (forall c, first_char "Ethernet1" = Some c -> mem_char c quote_chars = false) /\
      (forall c, last_char "Ethernet1" = Some c -> mem_char c quote_chars = false).
Proof.
  assert (Ho : occurs "name="
                 "/interfaces/interface[name=Ethernet1]/state/counters/in-octets")
    by (apply py_in_occurs; reflexivity).
  split; [exact Ho|].
  exact (interface_name_characterised _ Ho).
Defined.

(** C9, as the claim words it, fails: with a second [name=] before the
    closing bracket the source stops at that second [name=], while the
    text between the first [name=] and the first bracket is longer. *)
Lemma interface_name_not_up_to_bracket :
  ~ (forall path_str iface : string,
       occurs "name=" path_str ->
       Spec.claimed_interface_name path_str = Some iface ->
       interface_name path_str = iface).
Proof.
  intros H.
  specialize (H "[name=aname=b]" "aname=b").
  assert (Ho : occurs "name=" "[name=aname=b]") by (apply py_in_occurs; reflexivity).
  specialize (H Ho eq_refl). discriminate H.
Qed.

End InterfaceName.

(** ** The combinators: what they do to the object and to the log *)

Module Frames.

Lemma logged_logged (s : state) (a b : list event) :
  logged (logged s a) b = logged s (a ++ b).
Proof. unfold logged; simpl. rewrite <- app_assoc. reflexivity. Qed.

Lemma logged_nil (s : state) : logged s [] = s.
Proof. destruct s; unfold logged; simpl. rewrite app_nil_r. reflexivity. Qed.

Section Rules.

Variable R : demo -> demo -> Prop.
Hypothesis R_refl : forall d, R d d.
Hypothesis R_trans : forall a b c, R a b -> R b c -> R a c.
Variable P : event -> Prop.

Lemma frames_same {A} (o : outcome A) (s : state) :
  R (self s) (self s) /\ exists evs, log s = log s ++ evs /\ Forall P evs.
Proof. split; [apply R_refl|]. exists []. rewrite app_nil_r. auto. Qed.

Lemma frames_ret {A} (a : A) : frames R P (ret a).
Proof. intros s. apply (frames_same (Ret a)). Qed.

Lemma frames_raise {A} (e : exn) : frames R P (@raise A e).
Proof. intros s. apply (frames_same (@Raise A e)). Qed.

Lemma frames_hang {A} : frames R P (@hang A).
Proof. intros s. apply (frames_same (@Hang A)). Qed.

Lemma frames_lift {A} (o : outcome A) : frames R P (lift o).
Proof. intros s. apply (frames_same o). Qed.

Lemma frames_get_self : frames R P get_self.
Proof. intros s. apply (frames_same (Ret (self s))). Qed.

Lemma frames_emit (e : event) : P e -> frames R P (emit e).
Proof.
  intros He s. split; [apply R_refl|]. exists [e]. split; [reflexivity|auto].
Qed.

Lemma frames_print (l : line) : P (EPrint l) -> frames R P (print l).
Proof. apply frames_emit. Qed.

Lemma frames_input : P EInput -> frames R P input.
Proof.
  intros He s. unfold input.
  destruct (inputs s); (split; [apply R_refl|]); exists [EInput]; split; auto.
Qed.

Lemma frames_step {A} (m : M A) (s : state) (o : outcome A) (s1 : state) :
  frames R P m -> m s = (o, s1) ->
  R (self s) (self s1) /\ exists evs, log s1 = log s ++ evs /\ Forall P evs.
Proof. intros Hm E. specialize (Hm s). rewrite E in Hm. exact Hm. Qed.

Lemma frames_then (s s1 s2 : state) :
  (R (self s) (self s1) /\ exists evs, log s1 = log s ++ evs /\ Forall P evs) ->
  (R (self s1) (self s2) /\ exists evs, log s2 = log s1 ++ evs /\ Forall P evs) ->
  R (self s) (self s2) /\ exists evs, log s2 = log s ++ evs /\ Forall P evs.
Proof.
  intros (HR1 & evs1 & Hl1 & HP1) (HR2 & evs2 & Hl2 & HP2).
  split; [eapply R_trans; eassumption|].
  exists (evs1 ++ evs2). split; [rewrite Hl2, Hl1, app_assoc; reflexivity|].
  apply Forall_app; auto.
Qed.

Lemma frames_bind {A B} (m : M A) (k : A -> M B) :
  frames R P m -> (forall a, frames R P (k a)) -> frames R P (bind m k).
Proof.
  intros Hm Hk s. unfold bind. destruct (m s) as [o s1] eqn:E.
  pose proof (frames_step _ _ _ _ Hm E) as H1.
  destruct o as [a| |]; simpl; try exact H1.
  destruct (k a s1) as [o2 s2] eqn:E2.
  eapply frames_then; [exact H1|]. exact (frames_step _ _ _ _ (Hk a) E2).
Qed.

Lemma frames_try_except {A} (body : M A) (handles : exn -> bool) (handler : exn -> M A) :
  frames R P body -> (forall e, frames R P (handler e)) ->
  frames R P (try_except body handles handler).
Proof.
  intros Hb Hh s. unfold try_except. destruct (body s) as [o s1] eqn:E.
  pose proof (frames_step _ _ _ _ Hb E) as H1.
  destruct o as [a|e|]; simpl; try exact H1.
  destruct (handles e); simpl; [|exact H1].
  destruct (handler e s1) as [o2 s2] eqn:E2.
  eapply frames_then; [exact H1|]. exact (frames_step _ _ _ _ (Hh e) E2).
Qed.

Lemma frames_try_except2 {A} (body on_interrupt : M A) (on_exception : exn -> M A) :
  frames R P body -> frames R P on_interrupt -> (forall e, frames R P (on_exception e)) ->
  frames R P (try_except2 body on_interrupt on_exception).
Proof.
  intros Hb Hi He. apply frames_try_except; [exact Hb|].
  intros e. destruct (catch_KeyboardInterrupt e); auto.
Qed.

Lemma frames_try_finally {A} (body : M A) (cleanup : M unit) :
  frames R P body -> frames R P cleanup -> frames R P (try_finally body cleanup).
Proof.
  intros Hb Hc s. unfold try_finally. destruct (body s) as [o s1] eqn:E.
  pose proof (frames_step _ _ _ _ Hb E) as H1.
  destruct (cleanup s1) as [o2 s2] eqn:E2.
  pose proof (frames_then _ _ _ H1 (frames_step _ _ _ _ Hc E2)) as H2.
  destruct o as [a|e|]; simpl; try exact H1; destruct o2; exact H2.
Qed.

Lemma frames_for_each {A} (xs : list A) (body : A -> M unit) :
  (forall x, frames R P (body x)) -> frames R P (for_each xs body).
Proof.
  intros Hb. induction xs as [|x xs IH]; cbn [for_each].
  - apply frames_ret.
  - apply frames_bind; auto.
Qed.

End Rules.

End Frames.

(** ** Computations that only log *)

Module Logger.

Import PyStr Frames TelemetryDemo.

Lemma logged_blank (evs : list event) : log (logged blank evs) = evs.
Proof. reflexivity. Qed.

Lemma pure_ret {A} (a : A) : pure_logger (ret a).
Proof. intros s. unfold ret, result_of, events_of; simpl. rewrite logged_nil. reflexivity. Qed.

Lemma pure_raise {A} (e : exn) : pure_logger (@raise A e).
Proof. intros s. unfold raise, result_of, events_of; simpl. rewrite logged_nil. reflexivity. Qed.

Lemma pure_hang {A} : pure_logger (@hang A).
Proof. intros s. unfold hang, result_of, events_of; simpl. rewrite logged_nil. reflexivity. Qed.

Lemma pure_lift {A} (o : outcome A) : pure_logger (lift o).
Proof. intros s. unfold lift, result_of, events_of; simpl. rewrite logged_nil. reflexivity. Qed.

Lemma pure_emit (e : event) : pure_logger (emit e).
Proof. intros s. reflexivity. Qed.

Lemma pure_print (l : line) : pure_logger (print l).
Proof. apply pure_emit. Qed.

(** Result and events of a sequence of two loggers. *)
Lemma bind_blank {A B} (m : M A) (k : A -> M B) :
  pure_logger m -> (forall a, pure_logger (k a)) ->
  result_of (bind m k) = outcome_bind (result_of m) (fun a => result_of (k a)) /\
  events_of (bind m k) =
    events_of m ++ match result_of m with
                   | Ret a => events_of (k a)
                   | _ => []
                   end.
Proof.
  intros Hm Hk. unfold result_of at 1, events_of at 1, bind.
  rewrite (Hm blank). destruct (result_of m) as [a| |]; simpl.
  - rewrite (Hk a). simpl. auto.
  - rewrite app_nil_r. auto.
  - rewrite app_nil_r. auto.
Qed.

Lemma pure_bind {A B} (m : M A) (k : A -> M B) :
  pure_logger m -> (forall a, pure_logger (k a)) -> pure_logger (bind m k).
Proof.
  intros Hm Hk s. destruct (bind_blank m k Hm Hk) as [-> ->].
  unfold bind. rewrite (Hm s). destruct (result_of m) as [a| |]; simpl.
  - rewrite (Hk a), logged_logged. reflexivity.
  - rewrite app_nil_r. reflexivity.
  - rewrite app_nil_r. reflexivity.
Qed.

Lemma pure_for_each {A} (xs : list A) (body : A -> M unit) :
  (forall x, pure_logger (body x)) -> pure_logger (for_each xs body).
Proof.
  intros Hb. induction xs as [|x xs IH]; cbn [for_each].
  - apply pure_ret.
  - apply pure_bind; auto.
Qed.

#[local] Hint Resolve pure_ret pure_raise pure_hang pure_lift pure_emit pure_print
  pure_bind pure_for_each : core.

Lemma pure_sample_update (u : update) : pure_logger (sample_update u).
Proof.
  unfold sample_update.
  destruct (has_name_key _); [|auto].
  destruct (py_in "in-octets" _); [auto 6|].
  destruct (py_in "out-octets" _); auto 6.
Qed.

Lemma pure_on_change_update (u : update) : pure_logger (on_change_update u).
Proof.
  unfold on_change_update.
  destruct (has_name_key _); [|auto].
  destruct (py_in "oper-status" _); [auto|].
  destruct (py_in "admin-status" _); auto.
Qed.

Lemma pure_handle_response (handle : update -> M unit) (r : response) :
  (forall u, pure_logger (handle u)) -> pure_logger (handle_response handle r).
Proof. intros Hh. destruct r; cbn [handle_response]; auto. Qed.

Lemma pure_subscribe_loop (announce : nat -> M unit) (handle : update -> M unit)
    (start_time : Q) (items : list (response * Q)) (fin : stream_end) (n : nat) :
  (forall k, pure_logger (announce k)) -> (forall u, pure_logger (handle u)) ->
  pure_logger (subscribe_loop announce handle start_time items fin n).
Proof.
  intros Ha Hh. revert n. induction items as [|[r now] items IH]; intros n;
    cbn [subscribe_loop].
  - destruct fin; auto.
  - apply pure_bind; [auto|intros _].
    apply pure_bind; [apply pure_handle_response; auto|intros _].
    destruct (past_cutoff start_time now); auto.
Qed.

(** A [try] whose body is a sequence: the handler sees what the first
    step raises, and guards the rest. *)
Lemma try_except_bind {A B} (m : M A) (k : A -> M B) (handles : exn -> bool)
    (handler : exn -> M B) (s : state) :
  try_except (bind m k) handles handler s =
    match m s with
    | (Ret a, s1) => try_except (k a) handles handler s1
    | (Raise e, s1) => if handles e then handler e s1 else (Raise e, s1)
    | (Hang, s1) => (Hang, s1)
    end.
Proof.
  unfold try_except, bind. destruct (m s) as [[a|e|] s1]; reflexivity.
Qed.

Lemma try_except_emit {B} (ev : event) (m : M B) (handles : exn -> bool)
    (handler : exn -> M B) (s : state) :
  try_except (emit ev ;; m) handles handler s
  = try_except m handles handler (logged s [ev]).
Proof. rewrite try_except_bind. reflexivity. Qed.

(** A step that raises ends a sequence there. *)
Lemma bind_raise {A B} (m : M A) (k : A -> M B) (s s' : state) (e : exn) :
  m s = (Raise e, s') -> bind m k s = (Raise e, s').
Proof. intros H. unfold bind. rewrite H. reflexivity. Qed.

Lemma bind_ret {A B} (m : M A) (k : A -> M B) (s s' : state) (a : A) :
  m s = (Ret a, s') -> bind m k s = k a s'.
Proof. intros H. unfold bind. rewrite H. reflexivity. Qed.

End Logger.

(** ** The subscription loop *)

Module Loop.

Import PyStr Frames Logger TelemetryDemo.

Section Loop.

Variable announce : nat -> line.
Variable handle : update -> M unit.
Hypothesis handle_pure : forall u, pure_logger (handle u).

Let say (n : nat) : M unit := print (announce n).

Lemma round_ret (r : response) (n : nat) (s : state) :
  result_of (handle_response handle r) = Ret tt ->
  (say (S n) ;; handle_response handle r)%demo s
  = (Ret tt, logged s (EPrint (announce (S n)) :: events_of (handle_response handle r))).
Proof.
  intros Hr. unfold bind, say, print, emit.
  rewrite (pure_handle_response handle r handle_pure), Hr.
  unfold logged; simpl. rewrite <- app_assoc. reflexivity.
Qed.

Lemma round_raise (r : response) (n : nat) (s : state) (e : exn) :
  result_of (handle_response handle r) = Raise e ->
  (say (S n) ;; handle_response handle r)%demo s
  = (Raise e, logged s (EPrint (announce (S n)) :: events_of (handle_response handle r))).
Proof.
  intros Hr. unfold bind, say, print, emit.
  rewrite (pure_handle_response handle r handle_pure), Hr.
  unfold logged; simpl. rewrite <- app_assoc. reflexivity.
Qed.

Lemma loop_cons (r : response) (now start_time : Q) (rest : list (response * Q))
    (fin : stream_end) (n : nat) (s : state) :
  subscribe_loop say handle start_time ((r, now) :: rest) fin n s
  = match (say (S n) ;; handle_response handle r)%demo s with
    | (Ret _, s') =>
        if past_cutoff start_time now then (Ret (S n), s')
        else subscribe_loop say handle start_time rest fin (S n) s'
    | (Raise e, s') => (Raise e, s')
    | (Hang, s') => (Hang, s')
    end.
Proof.
  cbn [subscribe_loop]. unfold bind.
  destruct (say (S n) s) as [[[]| |] s1]; try reflexivity.
  destruct (handle_response handle r s1) as [[[]| |] s2]; try reflexivity.
  destruct (past_cutoff start_time now); reflexivity.
Qed.

(** Responses handled without an exception before the cutoff are gone
    through one by one, in arrival order; the loop then goes on with what
    follows them. *)
Lemma loop_prefix (start_time : Q) (pre rest : list (response * Q)) (fin : stream_end)
    (n : nat) (s : state) :
  within_cutoff start_time pre -> all_handled handle pre ->
  subscribe_loop say handle start_time (pre ++ rest) fin n s
  = subscribe_loop say handle start_time rest fin (n + length pre)
      (logged s (rounds say handle n pre)).
Proof.
  revert n s. induction pre as [|[r now] pre IH]; intros n s Hc Hh.
  - simpl. rewrite logged_nil, Nat.add_0_r. reflexivity.
  - apply Forall_cons in Hc as [Hc1 Hc]. apply Forall_cons in Hh as [Hh1 Hh].
    simpl in Hc1, Hh1.
    change (((r, now) :: pre) ++ rest) with ((r, now) :: (pre ++ rest)).
    rewrite loop_cons, (round_ret _ _ _ Hh1), Hc1, IH by assumption.
    rewrite logged_logged. cbn [rounds length].
    replace (n + S (length pre)) with (S n + length pre) by lia.
    reflexivity.
Qed.

Lemma loop_exhausted (start_time : Q) (items : list (response * Q)) (n : nat) (s : state) :
  within_cutoff start_time items -> all_handled handle items ->
  subscribe_loop say handle start_time items EndOfStream n s
  = (Ret (n + length items), logged s (rounds say handle n items)).
Proof.
  intros Hc Hh. rewrite <- (app_nil_r items) at 1.
  rewrite loop_prefix by assumption. reflexivity.
Qed.

(** An exception raised while a response is handled leaves the loop at
    once: what the stream holds after that response is never read. *)
Lemma loop_failure (start_time : Q) (pre : list (response * Q)) (r : response) (now : Q)
    (post : list (response * Q)) (fin : stream_end) (n : nat) (s : state) (e : exn) :
  within_cutoff start_time pre -> all_handled handle pre ->
  result_of (handle_response handle r) = Raise e ->
  subscribe_loop say handle start_time (pre ++ (r, now) :: post) fin n s
  = (Raise e,
     logged s (rounds say handle n pre
               ++ EPrint (announce (S (n + length pre)))
               :: events_of (handle_response handle r))).
Proof.
  intros Hc Hh Hr. rewrite loop_prefix by assumption.
  rewrite loop_cons, (round_raise _ _ _ _ Hr), logged_logged. reflexivity.
Qed.

(** A transport that raises after its responses makes the loop raise. *)
Lemma loop_transport_error (start_time : Q) (items : list (response * Q)) (n : nat)
    (s : state) (e : exn) :
  within_cutoff start_time items -> all_handled handle items ->
  subscribe_loop say handle start_time items (StreamRaise e) n s
  = (Raise e, logged s (rounds say handle n items)).
Proof.
  intros Hc Hh. rewrite <- (app_nil_r items) at 1.
  rewrite loop_prefix by assumption. reflexivity.
Qed.

(** A transport that falls silent leaves the loop waiting: the cutoff is
    not looked at again. *)
Lemma loop_silent (start_time : Q) (items : list (response * Q)) (n : nat) (s : state) :
  within_cutoff start_time items -> all_handled handle items ->
  subscribe_loop say handle start_time items StreamSilent n s
  = (Hang, logged s (rounds say handle n items)).
Proof.
  intros Hc Hh. rewrite <- (app_nil_r items) at 1.
  rewrite loop_prefix by assumption. reflexivity.
Qed.

(** A response handled after the cutoff is the last one. *)
Lemma loop_cutoff (start_time : Q) (pre : list (response * Q)) (r : response) (now : Q)
    (post : list (response * Q)) (fin : stream_end) (n : nat) (s : state) :
  within_cutoff start_time pre -> all_handled handle pre ->
  result_of (handle_response handle r) = Ret tt ->
  past_cutoff start_time now = true ->
  subscribe_loop say handle start_time (pre ++ (r, now) :: post) fin n s
  = (Ret (S (n + length pre)),
     logged s (rounds say handle n pre
               ++ EPrint (announce (S (n + length pre)))
               :: events_of (handle_response handle r))).
Proof.
  intros Hc Hh Hr Hpast. rewrite loop_prefix by assumption.
  rewrite loop_cons, (round_ret _ _ _ Hr), Hpast, logged_logged. reflexivity.
Qed.

End Loop.

End Loop.

(** ** Every method, framed *)

Module DemoFrames.

Import PyStr Frames TelemetryDemo.

Ltac frames_side := try solve [assumption | reflexivity | exact I | auto].

Ltac frames_step :=
  lazymatch goal with
  | |- frames _ _ (bind _ _) => apply frames_bind; [..|intros ?]
  | |- frames _ _ (ret _) => apply frames_ret
  | |- frames _ _ (raise _) => apply frames_raise
  | |- frames _ _ hang => apply frames_hang
  | |- frames _ _ (lift _) => apply frames_lift
  | |- frames _ _ get_self => apply frames_get_self
  | |- frames _ _ (print _) => apply frames_print
  | |- frames _ _ (emit _) => apply frames_emit
  | |- frames _ _ input => apply frames_input
  | |- frames _ _ (try_except2 _ _ _) => apply frames_try_except2; [..|intros ?]
  | |- frames _ _ (try_except _ _ _) => apply frames_try_except; [..|intros ?]
  | |- frames _ _ (try_finally _ _) => apply frames_try_finally
  | |- frames _ _ (for_each _ _) => apply frames_for_each; [..|intros ?]
  | |- frames _ _ (if ?b then _ else _) => destruct b
  | |- frames _ _ (match ?x with _ => _ end) => destruct x
  end; frames_side.

Ltac frames_all := repeat frames_step.

Section DemoFrames.

Variable R : demo -> demo -> Prop.
Hypothesis R_refl : forall d, R d d.
Hypothesis R_trans : forall a b c, R a b -> R b c -> R a c.
Variable P : event -> Prop.
Hypothesis P_input : P EInput.
Hypothesis P_print : forall l, P (EPrint l).

Lemma frames_sample_update (u : update) : frames R P (sample_update u).
Proof. unfold sample_update. frames_all. Qed.

Lemma frames_on_change_update (u : update) : frames R P (on_change_update u).
Proof. unfold on_change_update. frames_all. Qed.

Lemma frames_handle_response (handle : update -> M unit) (r : response) :
  (forall u, frames R P (handle u)) -> frames R P (handle_response handle r).
Proof. intros Hh. unfold handle_response. frames_all. Qed.

Lemma frames_subscribe_loop (announce : nat -> M unit) (handle : update -> M unit)
    (start_time : Q) (items : list (response * Q)) (fin : stream_end) (n : nat) :
  (forall k, frames R P (announce k)) -> (forall u, frames R P (handle u)) ->
  frames R P (subscribe_loop announce handle start_time items fin n).
Proof.
  intros Ha Hh. revert n. induction items as [|[r now] items IH]; intros n;
    cbn [subscribe_loop].
  - frames_all.
  - frames_step. frames_step; [apply frames_handle_response; assumption|].
    frames_all.
Qed.

(** What follows the [subscribe2] call in [demo_subscribe_sample]. *)
Lemma frames_sample_rest (w : env) :
  frames R P
    (try_except
       (update_count <-
          subscribe_loop (fun n => print (LUpdateNo n)) sample_update
            (st_start (env_subscribe w sample_request))
            (st_items (env_subscribe w sample_request))
            (st_end (env_subscribe w sample_request)) 0 ;;
        print (LReceived update_count) ;; input)
       (fun e => catch_KeyboardInterrupt e || catch_Exception e)
       (fun e => if catch_KeyboardInterrupt e then print LStopped ;; input
                 else print (LError e) ;; input)).
Proof.
  frames_step.
  - frames_step; [|frames_all].
    apply frames_subscribe_loop; [intros k; frames_all|apply frames_sample_update].
  - frames_all.
Qed.

Lemma frames_on_change_rest (w : env) :
  frames R P
    (try_except
       (update_count <-
          subscribe_loop (fun n => print (LChangeNo n)) on_change_update
            (st_start (env_subscribe w on_change_request))
            (st_items (env_subscribe w on_change_request))
            (st_end (env_subscribe w on_change_request)) 0 ;;
        (if (update_count =? 0)%nat then print LNoChanges
         else print (LDetected update_count)) ;;
        input)
       (fun e => catch_KeyboardInterrupt e || catch_Exception e)
       (fun e => if catch_KeyboardInterrupt e then print LStopped ;; input
                 else print (LError e) ;; input)).
Proof.
  frames_step.
  - frames_step; [|frames_all].
    apply frames_subscribe_loop; [intros k; frames_all|apply frames_on_change_update].
  - frames_all.
Qed.

Lemma frames_demo_subscribe_sample (w : env) :
  (forall rq, P (ESubscribe rq)) -> frames R P (demo_subscribe_sample w).
Proof.
  intros HP. unfold demo_subscribe_sample, try_except2.
  intros s. rewrite Logger.try_except_emit.
  destruct (frames_sample_rest w (logged s [ESubscribe sample_request]))
    as (HR & evs & Hlog & Hevs).
  split; [exact HR|]. exists (ESubscribe sample_request :: evs).
  split; [rewrite Hlog; simpl; rewrite <- app_assoc; reflexivity|].
  constructor; auto.
Qed.

Lemma frames_demo_subscribe_on_change (w : env) :
  (forall rq, P (ESubscribe rq)) -> frames R P (demo_subscribe_on_change w).
Proof.
  intros HP. unfold demo_subscribe_on_change, try_except2.
  intros s. rewrite Logger.try_except_emit.
  destruct (frames_on_change_rest w (logged s [ESubscribe on_change_request]))
    as (HR & evs & Hlog & Hevs).
  split; [exact HR|]. exists (ESubscribe on_change_request :: evs).
  split; [rewrite Hlog; simpl; rewrite <- app_assoc; reflexivity|].
  constructor; auto.
Qed.

Lemma frames_demo_capabilities (w : env) :
  P ECapabilities -> frames R P (demo_capabilities w).
Proof. intros HP. unfold demo_capabilities. frames_all. Qed.

Lemma frames_show_counters (d : list (string * pyval)) : frames R P (show_counters d).
Proof. unfold show_counters. frames_all. Qed.

Lemma frames_demo_get_single (w : env) :
  (forall paths enc, P (EGet paths enc)) -> frames R P (demo_get_single w).
Proof.
  intros HP. unfold demo_get_single. frames_all. apply frames_show_counters.
Qed.

Lemma frames_demo_comparison : frames R P demo_comparison.
Proof. unfold demo_comparison. frames_all. Qed.

Lemma frames_set_client :
  (forall d, R d {| host := host d; port := port d; client := true; stats := stats d |}) ->
  frames R P set_client.
Proof.
  intros HR s. split; [apply HR|]. exists []. simpl. rewrite app_nil_r. auto.
Qed.

Lemma frames_connect (w : env) :
  (forall d, R d {| host := host d; port := port d; client := true; stats := stats d |}) ->
  (forall h p, P (EConstruct h p)) -> P EConnect -> frames R P (connect w).
Proof.
  intros HR HP1 HP2. unfold connect. pose proof (frames_set_client HR). frames_all.
Qed.

Lemma frames_close_client (w : env) : P EClose -> frames R P (close_client w).
Proof. intros HP. unfold close_client. frames_all. Qed.

(** The five demos in a row, under the handler of [run_full_demo]. *)
Lemma frames_demos (w : env) :
  P ECapabilities -> (forall paths enc, P (EGet paths enc)) ->
  (forall rq, P (ESubscribe rq)) ->
  frames R P
    (try_except
       (demo_capabilities w ;; demo_get_single w ;; demo_subscribe_sample w ;;
        demo_subscribe_on_change w ;; demo_comparison)
       catch_Exception (fun e => print (LDemoError e))).
Proof.
  intros H1 H2 H3.
  pose proof (frames_demo_capabilities w H1).
  pose proof (frames_demo_get_single w H2).
  pose proof (frames_demo_subscribe_sample w H3).
  pose proof (frames_demo_subscribe_on_change w H3).
  pose proof frames_demo_comparison.
  frames_all.
Qed.

Lemma frames_run_full_demo (w : env) :
  (forall d, R d {| host := host d; port := port d; client := true; stats := stats d |}) ->
  (forall e, is_client_call e = true -> P e) ->
  frames R P (run_full_demo w).
Proof.
  intros HR HP. unfold run_full_demo.
  pose proof (frames_connect w HR (fun h p => HP (EConstruct h p) eq_refl)
                (HP EConnect eq_refl)).
  pose proof (frames_demos w (HP ECapabilities eq_refl)
                (fun ps enc => HP (EGet ps enc) eq_refl)
                (fun rq => HP (ESubscribe rq) eq_refl)).
  pose proof (frames_close_client w (HP EClose eq_refl)).
  frames_all.
Qed.

End DemoFrames.

End DemoFrames.

(** ** The streaming demos *)

Module Streaming.

Import PyStr PyStrFacts InterfaceName Frames Logger Loop TelemetryDemo.

(** The loop of [demo_subscribe_sample] in the world [w]. *)
Abbreviation sample_loop w :=
  (subscribe_loop (fun n => print (LUpdateNo n)) sample_update
     (st_start (env_subscribe w sample_request))
     (st_items (env_subscribe w sample_request))
     (st_end (env_subscribe w sample_request)) 0).

Abbreviation on_change_loop w :=
  (subscribe_loop (fun n => print (LChangeNo n)) on_change_update
     (st_start (env_subscribe w on_change_request))
     (st_items (env_subscribe w on_change_request))
     (st_end (env_subscribe w on_change_request)) 0).

(** What the handlers of [demo_subscribe_sample] make of the outcome of
    its loop. *)
Lemma demo_subscribe_sample_steps (w : env) (s : state) :
  demo_subscribe_sample w s =
    match sample_loop w (logged s [ESubscribe sample_request]) with
    | (Ret k, s1) =>
        try_except2 (print (LReceived k) ;; input)
          (print LStopped ;; input) (fun e => print (LError e) ;; input) s1
    | (Raise KeyboardInterrupt, s1) => (print LStopped ;; input)%demo s1
    | (Raise (Exc c), s1) => (print (LError (Exc c)) ;; input)%demo s1
    | (Raise SystemExit, s1) => (Raise SystemExit, s1)
    | (Hang, s1) => (Hang, s1)
    end.
Proof.
  unfold demo_subscribe_sample, try_except2.
  rewrite try_except_emit, try_except_bind.
  destruct (sample_loop w (logged s [ESubscribe sample_request])) as [[k|[c| |]|] s1];
    reflexivity.
Qed.

Lemma demo_subscribe_on_change_steps (w : env) (s : state) :
  demo_subscribe_on_change w s =
    match on_change_loop w (logged s [ESubscribe on_change_request]) with
    | (Ret k, s1) =>
        try_except2
          ((if (k =? 0)%nat then print LNoChanges else print (LDetected k)) ;; input)
          (print LStopped ;; input) (fun e => print (LError e) ;; input) s1
    | (Raise KeyboardInterrupt, s1) => (print LStopped ;; input)%demo s1
    | (Raise (Exc c), s1) => (print (LError (Exc c)) ;; input)%demo s1
    | (Raise SystemExit, s1) => (Raise SystemExit, s1)
    | (Hang, s1) => (Hang, s1)
    end.
Proof.
  unfold demo_subscribe_on_change, try_except2.
  rewrite try_except_emit, try_except_bind.
  destruct (on_change_loop w (logged s [ESubscribe on_change_request]))
    as [[k|[c| |]|] s1]; reflexivity.
Qed.

Lemma mbps_of_ordinary (v : pyval) : ordinary (mbps_of v).
Proof.
  unfold mbps_of. destruct (is_number v); [|exact I].
  destruct (as_int v) as [n|]; [|exact I].
  destruct (_ <=? _)%Z; [reflexivity|exact I].
Qed.

Lemma format_thousands_ordinary (v : pyval) : ordinary (format_thousands v).
Proof. destruct v; simpl; auto. Qed.

(** Handling an entry of the SAMPLE stream ends or raises an exception of
    the [Exception] family; it never blocks. *)
Lemma sample_update_ordinary (u : update) : ordinary (result_of (sample_update u)).
Proof.
  unfold sample_update.
  destruct (has_name_key _); [|exact I].
  pose proof (mbps_of_ordinary (default (VInt 0) (upd_val u))) as Hm.
  pose proof (format_thousands_ordinary (default (VInt 0) (upd_val u))) as Hf.
  destruct (py_in "in-octets" _); [|destruct (py_in "out-octets" _); [|exact I]];
    unfold result_of, bind, lift, print, emit; cbn [fst];
    destruct (mbps_of _); try assumption;
    destruct (format_thousands _); assumption.
Qed.

Lemma for_each_ordinary {A} (xs : list A) (body : A -> M unit) :
  (forall x, pure_logger (body x)) -> (forall x, ordinary (result_of (body x))) ->
  ordinary (result_of (for_each xs body)).
Proof.
  intros Hp Ho. induction xs as [|x xs IH]; cbn [for_each]; [exact I|].
  destruct (bind_blank (body x) (fun _ => for_each xs body)) as [-> _];
    [apply Hp | intros _; apply pure_for_each, Hp |].
  specialize (Ho x). destruct (result_of (body x)); simpl; assumption.
Qed.

Lemma handle_sample_response_ordinary (r : response) :
  ordinary (result_of (handle_response sample_update r)).
Proof.
  destruct r; cbn [handle_response]; [|exact I].
  apply for_each_ordinary; [apply pure_sample_update|apply sample_update_ordinary].
Qed.

Lemma after_error (e : exn) (s : state) (evs : list event) :
  (print (LError e) ;; input)%demo (logged s evs)
  = input (logged s (evs ++ [EPrint (LError e)])).
Proof. unfold bind, print, emit. cbn [fst snd]. rewrite <- logged_logged. reflexivity. Qed.




Lemma client_calls_cons_call (e : event) (evs : list event) :
  is_client_call e = true -> client_calls (e :: evs) = e :: client_calls evs.
Proof. intros He. unfold client_calls. rewrite filter_cons_True by exact He. reflexivity. Qed.

Lemma client_calls_none (evs : list event) :
  Forall (fun e => is_client_call e = false) evs -> client_calls evs = [].
Proof.
  induction 1 as [|e evs He _ IH]; [reflexivity|].
  unfold client_calls. rewrite filter_cons_False by congruence. exact IH.
Qed.

(** Whatever the world does, [demo_subscribe_sample] leaves the object as
    it found it and makes one call on the client: the subscribe request,
    once. *)
Lemma demo_subscribe_sample_calls (w : env) (s : state) :
  self (snd (demo_subscribe_sample w s)) = self s /\
  exists evs,
    log (snd (demo_subscribe_sample w s)) = log s ++ evs /\
    client_calls evs = [ESubscribe sample_request].
Proof.
  unfold demo_subscribe_sample, try_except2. rewrite try_except_emit.
  destruct (DemoFrames.frames_sample_rest eq (fun d => eq_refl)
              (fun a b c (H1 : a = b) (H2 : b = c) => eq_trans H1 H2)
              (fun e => is_client_call e = false) eq_refl (fun l => eq_refl) w
              (logged s [ESubscribe sample_request]))
    as (Hself & evs & Hlog & Hevs).
  split; [symmetry; exact Hself|].
  exists (ESubscribe sample_request :: evs). split.
  - rewrite Hlog. simpl. rewrite <- app_assoc. reflexivity.
  - rewrite client_calls_cons_call by reflexivity.
    rewrite (client_calls_none _ Hevs). reflexivity.
Qed.




(** The events of each response that [rounds] goes through are in it,
    under the number of its arrival. *)
Lemma rounds_lookup (announce : nat -> line) (handle : update -> M unit)
    (items : list (response * Q)) (n i : nat) (r : response) (t : Q) :
  items !! i = Some (r, t) ->
  exists before after,
    rounds (fun k => print (announce k)) handle n items
    = before ++ EPrint (announce (S (n + i)))
        :: events_of (handle_response handle r) ++ after.
Proof.
  revert n i. induction items as [|[r0 t0] items IH]; intros n i Hi; [discriminate|].
  destruct i as [|i]; cbn [rounds].
  - injection Hi as -> ->. exists [], (rounds (fun k => print (announce k)) handle (S n) items).
    rewrite Nat.add_0_r. reflexivity.
  - destruct (IH (S n) i Hi) as (before & after & ->).
    exists (EPrint (announce (S n)) :: events_of (handle_response handle r0) ++ before), after.
    replace (S n + i) with (n + S i) by lia.
    simpl. rewrite <- app_assoc. reflexivity.
Qed.




(** C8: evaluated where it fails.  After one update at second five the
    transport delivers nothing more: both demos wait in the generator for
    ever, the test of the thirty seconds is not reached again. *)
Theorem silent_transport_blocks_the_loop (s : state) :
  fst (demo_subscribe_sample
         (Scenario.device Scenario.falls_silent Scenario.falls_silent) s) = Hang /\
  fst (demo_subscribe_on_change
         (Scenario.device Scenario.falls_silent Scenario.falls_silent) s) = Hang.
Proof.
  split.
  - rewrite demo_subscribe_sample_steps.
    rewrite (loop_silent LUpdateNo sample_update pure_sample_update)
      by (repeat constructor).
    reflexivity.
  - rewrite demo_subscribe_on_change_steps.
    rewrite (loop_silent LChangeNo on_change_update pure_on_change_update)
      by (repeat constructor).
    reflexivity.
Qed.

End Streaming.

(** ** How an update is attributed to a counter *)

Module Matching.

Import PyStr PyStrFacts InterfaceName Frames Logger TelemetryDemo.

Lemma has_name_key_eq (path_str : string) :
  has_name_key path_str = py_in "name=" path_str.
Proof.
  unfold has_name_key. destruct (py_in "name=" path_str) eqn:H1; [reflexivity|].
  destruct (py_in "[name=" path_str) eqn:H2; [|reflexivity].
  apply py_in_occurs in H2 as (pre & post & ->).
  assert (py_in "name=" (pre ++ "[name=" ++ post) = true); [|congruence].
  apply py_in_occurs. exists (pre ++ "[")%string, post.
  rewrite append_assoc. reflexivity.
Qed.

Lemma mbps_of_int (n : Z) :
  (Z.abs (n * 8) < float_overflow * 1000000)%Z ->
  mbps_of (VInt n) = Ret (inject_Z (n * 8) / inject_Z 1000000)%Q.
Proof.
  intros H. unfold mbps_of. cbn [is_number as_int].
  destruct (Z.leb_spec (float_overflow * 1000000) (Z.abs (n * 8))); [lia|reflexivity].
Qed.

Lemma show_rx (iface : string) (n : Z) (s : state) :
  (Z.abs (n * 8) < float_overflow * 1000000)%Z ->
  (mbps <- lift (mbps_of (VInt n)) ;;
   shown <- lift (format_thousands (VInt n)) ;;
   print (LRx iface mbps shown))%demo s
  = (Ret tt, logged s [EPrint (LRx iface (inject_Z (n * 8) / inject_Z 1000000) (VInt n))]).
Proof. intros H. unfold bind, lift. rewrite (mbps_of_int n H). reflexivity. Qed.

Lemma show_tx (iface : string) (n : Z) (s : state) :
  (Z.abs (n * 8) < float_overflow * 1000000)%Z ->
  (mbps <- lift (mbps_of (VInt n)) ;;
   shown <- lift (format_thousands (VInt n)) ;;
   print (LTx iface mbps shown))%demo s
  = (Ret tt, logged s [EPrint (LTx iface (inject_Z (n * 8) / inject_Z 1000000) (VInt n))]).
Proof. intros H. unfold bind, lift. rewrite (mbps_of_int n H). reflexivity. Qed.







End Matching.

(** ** The full run *)

Module Run.

Import Frames Logger DemoFrames TelemetryDemo.

Lemma same_stats_refl (d : demo) : same_stats d d.
Proof. reflexivity. Qed.

Lemma same_stats_trans (a b c : demo) : same_stats a b -> same_stats b c -> same_stats a c.
Proof. unfold same_stats. congruence. Qed.

Lemma same_stats_set_client (d : demo) :
  same_stats d {| host := host d; port := port d; client := true; stats := stats d |}.
Proof. reflexivity. Qed.

Lemma keeps_stats {A} (m : M A) (s : state) :
  frames same_stats any_event m -> stats (self (snd (m s))) = stats (self s).
Proof. intros H. apply (H s). Qed.

Ltac stats_side :=
  first [ exact same_stats_refl | exact same_stats_trans | exact same_stats_set_client
        | exact I | intros; exact I ].

(** C10: no operation of the demo object writes the [stats] mapping.  It
    is empty after [__init__], and every method, [run_full_demo] included,
    leaves it as it found it, in every world. *)
Theorem stats_never_written (op : operation) (w : env) (s : state)
    (h : string) (p : Z) (script : list (outcome unit)) :
  stats (self (initial_state h p script)) = ∅ /\
  stats (self (exec op w s)) = stats (self s) /\
  stats (self (snd (main w script))) = ∅.
Proof.
  assert (Hrun : forall s0, stats (self (snd (run_full_demo w s0))) = stats (self s0)).
  { intros s0. apply keeps_stats, frames_run_full_demo; stats_side. }
  repeat split.
  - destruct op; cbn [exec]; apply keeps_stats;
      [ apply frames_connect | apply frames_demo_capabilities
      | apply frames_demo_get_single | apply frames_demo_subscribe_sample
      | apply frames_demo_subscribe_on_change | apply frames_demo_comparison
      | apply frames_run_full_demo ]; stats_side.
  - unfold main. rewrite Hrun. reflexivity.
Qed.

(** A successful [connect] has stored the client object and has not
    closed anything. *)
Lemma connect_true (w : env) (s s1 : state) :
  connect w s = (Ret true, s1) ->
  client (self s1) = true /\
  exists evs, log s1 = log s ++ evs /\ Forall not_close evs.
Proof.
  unfold connect, try_except, bind, get_self, emit, lift, set_client, print, emit, ret.
  destruct (env_construct w) as [[]|e|]; cbn.
  - destruct (env_connect w) as [[]|e|]; cbn.
    + intros [= <-]. cbn. split; [reflexivity|].
      eexists. rewrite <- !app_assoc. split; [reflexivity|].
      repeat constructor.
    + destruct (catch_Exception e); cbn; discriminate.
    + discriminate.
  - destruct (catch_Exception e); cbn; discriminate.
  - discriminate.
Qed.

(** The [finally] block, when a client object is stored: one [close], the
    last event of the log, and an exception of [close] is swallowed. *)
Lemma close_client_stored (w : env) (s : state) :
  client (self s) = true ->
  close_client w s
  = (match env_close w with
     | Hang => Hang
     | _ => Ret tt
     end,
     logged s [EPrint LClosing; EClose]).
Proof.
  intros Hc. unfold close_client, bind, get_self. rewrite Hc.
  unfold print, emit, try_except, bind, lift, emit, catch_all, ret, logged. cbn.
  rewrite <- !app_assoc.
  destruct (env_close w) as [[]|e|]; reflexivity.
Qed.

Lemma close_client_swallows (w : env) (s : state) (e : exn) :
  env_close w = Raise e ->
  close_client w s = close_client (with_close w (Ret tt)) s.
Proof.
  intros He. unfold close_client, bind, get_self.
  destruct (client (self s)); [|reflexivity].
  unfold print, emit, try_except, bind, lift, emit, catch_all, ret. cbn.
  rewrite He. reflexivity.
Qed.

Lemma try_finally_cleanup_ext {A} (body : M A) (c1 c2 : M unit) (s : state) :
  (forall s', c1 s' = c2 s') -> try_finally body c1 s = try_finally body c2 s.
Proof.
  intros H. unfold try_finally. destruct (body s) as [[a|e|] s']; rewrite ?H; reflexivity.
Qed.



End Run.

(** ** The requests sent to the device *)

Module Requests.

Import TelemetryDemo.

(** Every entry of the SAMPLE request carries the interval of five seconds,
    in nanoseconds; the entries of the ON_CHANGE request carry none. *)
Lemma sample_request_intervals (e : sub_entry) :
  In e (rq_subscription sample_request) ->
  se_mode e = "sample" /\ se_sample_interval e = Some (5 * 10 ^ 9)%Z.
Proof.
  cbn. intros [<- | [<- | []]]; split; reflexivity.
Qed.

Lemma on_change_request_intervals (e : sub_entry) :
  In e (rq_subscription on_change_request) ->
  se_mode e = "on_change" /\ se_sample_interval e = None.
Proof.
  cbn. intros [<- | [<- | []]]; split; reflexivity.
Qed.

End Requests.

(** ** More on the streaming demos *)

Module StreamingMore.

Import PyStr PyStrFacts Frames Logger Loop Streaming TelemetryDemo.

(** Handling an entry of the ON_CHANGE stream never raises, whatever the
    type of its value: the line is built with [str(value)] and a plain
    field. *)
Lemma on_change_update_ret (u : update) : result_of (on_change_update u) = Ret tt.
Proof.
  unfold on_change_update.
  destruct (has_name_key _); [|reflexivity].
  destruct (py_in "oper-status" _); [reflexivity|].
  destruct (py_in "admin-status" _); reflexivity.
Qed.

Lemma for_each_ret {A} (xs : list A) (body : A -> M unit) :
  (forall x, pure_logger (body x)) -> (forall x, result_of (body x) = Ret tt) ->
  result_of (for_each xs body) = Ret tt.
Proof.
  intros Hp Hr. induction xs as [|x xs IH]; cbn [for_each]; [reflexivity|].
  destruct (bind_blank (body x) (fun _ => for_each xs body)) as [-> _];
    [apply Hp | intros _; apply pure_for_each, Hp |].
  rewrite Hr. exact IH.
Qed.

Lemma input_returns (s : state) (evs : list event) :
  next_input_returns s ->
  input (logged s evs) = (Ret tt, snd (input (logged s evs))).
Proof.
  unfold next_input_returns, input. cbn [logged inputs].
  destruct (inputs s) as [|o rest]; [reflexivity|]. intros ->. reflexivity.
Qed.

(** A last [input()] that returns ends the [try] without any handler. *)
Lemma try_print_input (l : line) (s : state) (evs : list event) (h1 : M unit)
    (h2 : exn -> M unit) :
  next_input_returns s ->
  try_except2 (print l ;; input) h1 h2 (logged s evs)
  = input (logged s (evs ++ [EPrint l])).
Proof.
  intros Hi. unfold try_except2, try_except, bind, print, emit. cbn [fst snd].
  fold (logged (logged s evs) [EPrint l]). rewrite logged_logged.
  rewrite (input_returns s (evs ++ [EPrint l]) Hi). reflexivity.
Qed.

Lemma handle_on_change_ret (r : response) :
  result_of (handle_response on_change_update r) = Ret tt.
Proof.
  destruct r as [notif|]; cbn [handle_response]; [|reflexivity].
  apply for_each_ret; [apply pure_on_change_update|apply on_change_update_ret].
Qed.

Lemma on_change_all_handled (items : list (response * Q)) :
  all_handled on_change_update items.
Proof.
  apply Forall_forall. intros [r t] _. apply handle_on_change_ret.
Qed.



Lemma after_stopped (s : state) (evs : list event) :
  (print LStopped ;; input)%demo (logged s evs)
  = input (logged s (evs ++ [EPrint LStopped])).
Proof. unfold bind, print, emit. cbn [fst snd]. rewrite <- logged_logged. reflexivity. Qed.







Lemma rounds_other (announce : nat -> line) (handle : update -> M unit)
    (items : list (response * Q)) (n : nat) :
  Forall (fun it => fst it = RespOther) items ->
  rounds (fun k => print (announce k)) handle n items
  = map (fun k => EPrint (announce k)) (seq (S n) (length items)).
Proof.
  intros H. revert n. induction H as [|[r t] items Hr _ IH]; intros n; [reflexivity|].
  simpl in Hr. subst r. cbn [rounds length seq map]. rewrite IH. reflexivity.
Qed.

Lemma other_all_handled (handle : update -> M unit) (items : list (response * Q)) :
  Forall (fun it => fst it = RespOther) items -> all_handled handle items.
Proof.
  intros H. eapply Forall_impl; [exact H|]. intros [r t]; simpl. intros ->. reflexivity.
Qed.



End StreamingMore.

(** ** More on [connect] and on the full run *)

Module RunMore.

Import Frames Logger DemoFrames Run TelemetryDemo.

#[local] Set Warnings "-clear-no-such-hyp".

Lemma connect_cases (w : env) (s : state) :
  connect w s =
    let h := host (self s) in
    let p := port (self s) in
    match env_construct w with
    | Ret _ =>
        match env_connect w with
        | Ret _ => (Ret true, with_client s [EConstruct h p; EConnect; EPrint LConnected])
        | Raise (Exc c) =>
            (Ret false,
             with_client s [EConstruct h p; EConnect; EPrint (LConnectFailed (Exc c))])
        | Raise e => (Raise e, with_client s [EConstruct h p; EConnect])
        | Hang => (Hang, with_client s [EConstruct h p; EConnect])
        end
    | Raise (Exc c) =>
        (Ret false, logged s [EConstruct h p; EPrint (LConnectFailed (Exc c))])
    | Raise e => (Raise e, logged s [EConstruct h p])
    | Hang => (Hang, logged s [EConstruct h p])
    end.
Proof.
  unfold connect, try_except, bind, get_self, emit, lift, set_client, print, emit, ret,
    with_client, logged.
  destruct (env_construct w) as [[]|[c| |]|]; cbn; rewrite <- ?app_assoc; try reflexivity.
  destruct (env_connect w) as [[]|[c| |]|]; cbn; rewrite <- ?app_assoc; reflexivity.
Qed.

(** X6: [connect] returns [True] exactly when both the construction of
    the client and its [connect()] return; it returns [False] exactly when
    one of the two raises an exception of the [Exception] family; and no
    such exception ever leaves it. *)
Theorem connect_outcomes (w : env) (s : state) :
  (fst (connect w s) = Ret true <->
   (exists u, env_construct w = Ret u) /\ (exists u, env_connect w = Ret u)) /\
  (fst (connect w s) = Ret false <->
   (exists c, env_construct w = Raise (Exc c)) \/
   ((exists u, env_construct w = Ret u) /\ exists c, env_connect w = Raise (Exc c))) /\
  (forall e, fst (connect w s) = Raise e -> is_Exception e = false).
Proof.
  rewrite connect_cases. cbv zeta.
  destruct (env_construct w) as [u|[c| |]|]; cbn [fst]; [|naive_solver..].
  destruct (env_connect w) as [u'|[c| |]|]; cbn [fst]; naive_solver.
Qed.

(** X7: when [connect] returns [False], [run_full_demo] returns at once:
    no demo runs and nothing is closed.  This holds also when the client
    object had been built and stored before its [connect()] failed: that
    object is left as it is. *)
Theorem failed_connect_ends_run (w : env) (s s1 : state) :
  connect w s = (Ret false, s1) ->
  run_full_demo w s = (Ret tt, s1) /\
  exists c,
    (env_construct w = Raise (Exc c) /\
     s1 = logged s [EConstruct (host (self s)) (port (self s));
                    EPrint (LConnectFailed (Exc c))]) \/
    (env_connect w = Raise (Exc c) /\
     s1 = with_client s [EConstruct (host (self s)) (port (self s)); EConnect;
                         EPrint (LConnectFailed (Exc c))]).
Proof.
  intros Hc. split.
  - unfold run_full_demo. rewrite (bind_ret _ _ _ _ _ Hc). reflexivity.
  - revert Hc. rewrite connect_cases. cbv zeta.
    destruct (env_construct w) as [u|[c| |]|]; try discriminate.
    + destruct (env_connect w) as [u'|[c| |]|]; try discriminate.
      intros [= <-]. exists c. right. split; reflexivity.
    + intros [= <-]. exists c. left. split; reflexivity.
Qed.

Lemma failed_connect_ends_run_witness :
  let w := {| env_construct := Ret tt;
              env_connect := Raise (Exc "TimeoutError");
              env_capabilities := Ret VNone;
              env_get := Ret None;
              env_subscribe := fun _ => Scenario.ended [];
              env_close := Ret tt |} in
  let s := Scenario.start_state in
  let s1 := with_client s [EConstruct (host (self s)) (port (self s)); EConnect;
                           EPrint (LConnectFailed (Exc "TimeoutError"))] in
  connect w s = (Ret false, s1) /\
  run_full_demo w s = (Ret tt, s1) /\
  exists c,
    (env_construct w = Raise (Exc c) /\
     s1 = logged s [EConstruct (host (self s)) (port (self s));
                    EPrint (LConnectFailed (Exc c))]) \/
    (env_connect w = Raise (Exc c) /\
     s1 = with_client s [EConstruct (host (self s)) (port (self s)); EConnect;
                         EPrint (LConnectFailed (Exc c))]).
Proof.
  intros w s s1.
  assert (H : connect w s = (Ret false, s1)) by reflexivity.
  split; [exact H|].
  exact (failed_connect_ends_run w s s1 H).
Defined.

Lemma close_client_outcome (w : env) (s : state) :
  (exists u, fst (close_client w s) = Ret u) \/ fst (close_client w s) = Hang.
Proof.
  destruct (client (self s)) eqn:Hc.
  - rewrite (close_client_stored w s Hc). destruct (env_close w); cbn; eauto.
  - unfold close_client, bind, get_self. rewrite Hc. cbn. eauto.
Qed.

Lemma try_except_print_contains (body : M unit) (l : exn -> line) (s : state) (e : exn) :
  fst (try_except body catch_Exception (fun e' => print (l e')) s) = Raise e ->
  is_Exception e = false.
Proof.
  unfold try_except. destruct (body s) as [[a|e'|] s2]; cbn [fst]; try discriminate.
  destruct (catch_Exception e') eqn:He'; cbn [fst]; [discriminate|].
  intros [= <-]. exact He'.
Qed.

(** The [finally] block of the run raises nothing of its own. *)
Lemma try_finally_close_raise {A} (body : M A) (w : env) (s : state) (e : exn) :
  fst (try_finally body (close_client w) s) = Raise e -> fst (body s) = Raise e.
Proof.
  unfold try_finally. destruct (body s) as [[a|e'|] s2]; cbn [fst]; try discriminate;
    (destruct (close_client_outcome w s2) as [[u H]|H];
     destruct (close_client w s2) as [o s3]; cbn [fst] in H; subst o;
     cbn [fst]; congruence).
Qed.

Lemma connect_raise (w : env) (s : state) (e : exn) :
  fst (connect w s) = Raise e -> is_Exception e = false.
Proof.
  rewrite connect_cases. cbv zeta.
  destruct (env_construct w) as [u|[c| |]|]; cbn [fst];
    [destruct (env_connect w) as [u'|[c| |]|]; cbn [fst]|..];
    try discriminate; intros [= <-]; reflexivity.
Qed.

Lemma run_full_demo_raise (w : env) (s : state) (e : exn) :
  fst (run_full_demo w s) = Raise e -> is_Exception e = false.
Proof.
  unfold run_full_demo, bind.
  pose proof (connect_raise w s) as Hraise.
  destruct (connect w s) as [[[]|e'|] s1]; cbn [negb fst] in *; try discriminate.
  - intros H%try_finally_close_raise. eapply try_except_print_contains, H.
  - intros [= <-]. apply Hraise. reflexivity.
Qed.

(** X8: [run_full_demo] lets no exception of the [Exception] family
    reach its caller, whatever the device and the user do: what it raises,
    if anything, is a [KeyboardInterrupt] or a [SystemExit]. *)
Theorem run_full_demo_contains_exceptions (w : env) (s : state) (e : exn) :
  fst (run_full_demo w s) = Raise e -> is_Exception e = false.
Proof. apply run_full_demo_raise. Qed.

Lemma run_full_demo_contains_exceptions_witness :
  fst (run_full_demo (Scenario.device (Scenario.ended []) (Scenario.ended []))
         (initial_state "172.20.20.11" 6030 [Raise KeyboardInterrupt]))
  = Raise KeyboardInterrupt /\
  is_Exception KeyboardInterrupt = false.
Proof.
  assert (H : fst (run_full_demo (Scenario.device (Scenario.ended []) (Scenario.ended []))
                     (initial_state "172.20.20.11" 6030 [Raise KeyboardInterrupt]))
              = Raise KeyboardInterrupt) by (vm_compute; reflexivity).
  split; [exact H|].
  exact (run_full_demo_contains_exceptions _ _ _ H).
Defined.

Lemma same_target_refl (d : demo) : same_target d d.
Proof. unfold same_target. auto. Qed.

Lemma same_target_trans (a b c : demo) :
  same_target a b -> same_target b c -> same_target a c.
Proof. unfold same_target. intros (-> & -> & H1) (-> & -> & H2). auto. Qed.

Lemma same_target_set_client (d : demo) :
  same_target d {| host := host d; port := port d; client := true; stats := stats d |}.
Proof. unfold same_target. auto. Qed.

Ltac target_side :=
  first [ exact same_target_refl | exact same_target_trans | exact same_target_set_client
        | exact I | intros; exact I ].

(** X9: no operation of the demo object changes the host or the port it
    was built with, and none forgets a stored client object: once
    [self.client] is set it stays set, also after [close()]. *)
Theorem target_never_changes (op : operation) (w : env) (s : state) :
  host (self (exec op w s)) = host (self s) /\
  port (self (exec op w s)) = port (self s) /\
  (client (self s) = true -> client (self (exec op w s)) = true).
Proof.
  assert (H : forall {A} (m : M A), frames same_target any_event m ->
                same_target (self s) (self (snd (m s))))
    by (intros A m Hm; apply (Hm s)).
  change (same_target (self s) (self (exec op w s))).
  destruct op; cbn [exec]; apply H;
    [ apply frames_connect | apply frames_demo_capabilities
    | apply frames_demo_get_single | apply frames_demo_subscribe_sample
    | apply frames_demo_subscribe_on_change | apply frames_demo_comparison
    | apply frames_run_full_demo ]; target_side.
Qed.

(** *** The order of the calls on the client *)

Lemma client_calls_app (a b : list event) :
  client_calls (a ++ b) = client_calls a ++ client_calls b.
Proof. unfold client_calls. apply filter_app. Qed.

(** A [try] whose body begins with a call on the client and otherwise only
    prints and reads: exactly that call. *)
Lemma first_call_only (c : event) (rest : M unit) (handles : exn -> bool)
    (handler : exn -> M unit) :
  is_client_call c = true ->
  frames eq (fun e => is_client_call e = false) (try_except rest handles handler) ->
  calls_exactly [c] (try_except (emit c ;; rest) handles handler).
Proof.
  intros Hc Hrest s. rewrite try_except_emit.
  destruct (Hrest (logged s [c])) as (Hself & evs & Hlog & Hevs).
  split; [symmetry; exact Hself|].
  exists (c :: evs). split.
  - rewrite Hlog. simpl. rewrite <- app_assoc. reflexivity.
  - rewrite Streaming.client_calls_cons_call by exact Hc.
    rewrite (Streaming.client_calls_none _ Hevs). reflexivity.
Qed.

Ltac io_frames :=
  pose proof (@eq_refl demo) as R_refl;
  pose proof (@eq_trans demo) as R_trans;
  frames_all.

Lemma demo_capabilities_calls (w : env) : calls_exactly [ECapabilities] (demo_capabilities w).
Proof.
  unfold demo_capabilities. apply first_call_only; [reflexivity|]. io_frames.
Qed.

Lemma demo_get_single_calls (w : env) :
  calls_exactly [EGet [get_single_path] "json_ietf"] (demo_get_single w).
Proof.
  unfold demo_get_single. apply first_call_only; [reflexivity|]. io_frames.
  apply frames_show_counters; auto.
Qed.

Lemma demo_subscribe_sample_calls' (w : env) :
  calls_exactly [ESubscribe sample_request] (demo_subscribe_sample w).
Proof.
  unfold demo_subscribe_sample, try_except2. apply first_call_only; [reflexivity|].
  apply frames_sample_rest; auto. intros a b c. apply eq_trans.
Qed.

Lemma demo_subscribe_on_change_calls (w : env) :
  calls_exactly [ESubscribe on_change_request] (demo_subscribe_on_change w).
Proof.
  unfold demo_subscribe_on_change, try_except2. apply first_call_only; [reflexivity|].
  apply frames_on_change_rest; auto. intros a b c. apply eq_trans.
Qed.

Lemma demo_comparison_calls : calls_exactly [] demo_comparison.
Proof.
  intros s. unfold demo_comparison, input.
  destruct (inputs s); (split; [reflexivity|]); exists [EInput]; split; reflexivity.
Qed.

Lemma calls_then_nothing (c : event) (m1 m2 : M unit) :
  calls_exactly [c] m1 -> calls_exactly [] m2 -> calls_from c [] (m1 ;; m2).
Proof.
  intros H1 H2 s. unfold bind.
  destruct (H1 s) as (Hs1 & evs1 & Hl1 & Hc1).
  destruct (m1 s) as [[[]|e|] s1]; cbn [fst snd] in *;
    try (split; [exact Hs1|]; exists evs1, 0; split; [exact Hl1|exact Hc1]).
  destruct (H2 s1) as (Hs2 & evs2 & Hl2 & Hc2).
  split; [congruence|]. exists (evs1 ++ evs2), 0. split.
  - rewrite Hl2, Hl1, app_assoc. reflexivity.
  - rewrite client_calls_app, Hc1, Hc2. reflexivity.
Qed.

Lemma calls_then_more (c c2 : event) (cs : list event) (m1 m2 : M unit) :
  calls_exactly [c] m1 -> calls_from c2 cs m2 -> calls_from c (c2 :: cs) (m1 ;; m2).
Proof.
  intros H1 H2 s. unfold bind.
  destruct (H1 s) as (Hs1 & evs1 & Hl1 & Hc1).
  destruct (m1 s) as [[[]|e|] s1]; cbn [fst snd] in *;
    try (split; [exact Hs1|]; exists evs1, 0; split; [exact Hl1|exact Hc1]).
  destruct (H2 s1) as (Hs2 & evs2 & k & Hl2 & Hc2).
  split; [congruence|]. exists (evs1 ++ evs2), (S k). split.
  - rewrite Hl2, Hl1, app_assoc. reflexivity.
  - rewrite client_calls_app, Hc1, Hc2. reflexivity.
Qed.

(** The five demos in a row, under the handler of the run. *)
Lemma demos_calls (w : env) :
  calls_from ECapabilities (tail demo_calls)
    (try_except
       (demo_capabilities w ;; demo_get_single w ;; demo_subscribe_sample w ;;
        demo_subscribe_on_change w ;; demo_comparison)
       catch_Exception (fun e => print (LDemoError e))).
Proof.
  assert (Hbody : calls_from ECapabilities (tail demo_calls)
                    (demo_capabilities w ;; demo_get_single w ;; demo_subscribe_sample w ;;
                     demo_subscribe_on_change w ;; demo_comparison)).
  { apply calls_then_more; [apply demo_capabilities_calls|].
    apply calls_then_more; [apply demo_get_single_calls|].
    apply calls_then_more; [apply demo_subscribe_sample_calls'|].
    apply calls_then_nothing;
      [apply demo_subscribe_on_change_calls|apply demo_comparison_calls]. }
  intros s. unfold try_except.
  destruct (Hbody s) as (Hs & evs & k & Hl & Hc).
  destruct ((_ ;; _)%demo s) as [[[]|e|] s1]; cbn [fst snd] in *;
    try (split; [exact Hs|]; exists evs, k; split; [exact Hl|exact Hc]).
  destruct (catch_Exception e); cbn [fst snd];
    [|split; [exact Hs|]; exists evs, k; split; [exact Hl|exact Hc]].
  split; [exact Hs|]. exists (evs ++ [EPrint (LDemoError e)]), k. split.
  - cbn. rewrite Hl, app_assoc. reflexivity.
  - rewrite client_calls_app, Hc. cbn. rewrite app_nil_r. reflexivity.
Qed.

(** X10: after a successful [connect], the run calls the device in one
    fixed order, each call at most once: [capabilities], [get], the SAMPLE
    subscription, the ON_CHANGE subscription, as far as it gets, and then
    [close]; only a run that blocks for ever in a demo makes no [close].
    In particular it never connects a second time and never repeats a
    subscription. *)
Theorem run_calls_in_order (w : env) (s s1 : state) :
  connect w s = (Ret true, s1) ->
  exists evs k,
    log (snd (run_full_demo w s)) = log s1 ++ evs /\
    (client_calls evs = firstn (S k) demo_calls ++ [EClose] \/
     (fst (run_full_demo w s) = Hang /\ client_calls evs = firstn (S k) demo_calls)).
Proof.
  intros Hconn.
  destruct (connect_true _ _ _ Hconn) as (Hclient & _).
  unfold run_full_demo. rewrite (bind_ret _ _ _ _ _ Hconn). cbn [negb].
  unfold try_finally.
  destruct (demos_calls w s1) as (Hs & evs & k & Hl & Hc).
  destruct (try_except _ _ _ s1) as [o s2]. cbn [snd] in Hs, Hl.
  assert (Hc2 : client (self s2) = true) by (rewrite Hs; exact Hclient).
  assert (Hclose : client_calls (evs ++ [EPrint LClosing; EClose])
                   = firstn (S k) demo_calls ++ [EClose])
    by (rewrite client_calls_app, Hc; reflexivity).
  assert (Hlog : log (logged s2 [EPrint LClosing; EClose])
                 = log s1 ++ evs ++ [EPrint LClosing; EClose])
    by (cbn [logged log]; rewrite Hl, <- app_assoc; reflexivity).
  rewrite (close_client_stored w s2 Hc2).
  destruct o as [a|e|]; cbn [fst snd].
  - exists (evs ++ [EPrint LClosing; EClose]), k.
    destruct (env_close w); cbn [snd]; auto.
  - exists (evs ++ [EPrint LClosing; EClose]), k.
    destruct (env_close w); cbn [snd]; auto.
  - exists evs, k. split; [exact Hl|]. right. split; [reflexivity|exact Hc].
Qed.

Lemma run_calls_in_order_witness :
  let w := Scenario.device Scenario.disconnecting (Scenario.ended []) in
  let s := Scenario.start_state in
  let s1 := snd (connect w s) in
  connect w s = (Ret true, s1) /\
  exists evs k,
    log (snd (run_full_demo w s)) = log s1 ++ evs /\
    (client_calls evs = firstn (S k) demo_calls ++ [EClose] \/
     (fst (run_full_demo w s) = Hang /\ client_calls evs = firstn (S k) demo_calls)).
Proof.
  intros w s s1.
  assert (H : connect w s = (Ret true, s1)) by reflexivity.
  split; [exact H|].
  exact (run_calls_in_order w s s1 H).
Defined.

End RunMore.

(** ** What the handlers of the demos contain *)

Module Contain.

Import PyStr Frames Logger TelemetryDemo.

Section Rules.

Variable I : state -> state -> Prop.
Hypothesis I_refl : forall s, I s s.
Hypothesis I_trans : forall a b c, I a b -> I b c -> I a c.
Hypothesis I_emit : forall s e, I s (snd (emit e s)).
Hypothesis I_input : forall s, I s (snd (input s)).

Lemma preserves_ret {A} (a : A) : preserves I (ret a).
Proof. intros s. apply I_refl. Qed.

Lemma preserves_raise {A} (e : exn) : preserves I (@raise A e).
Proof. intros s. apply I_refl. Qed.

Lemma preserves_hang {A} : preserves I (@hang A).
Proof. intros s. apply I_refl. Qed.

Lemma preserves_lift {A} (o : outcome A) : preserves I (lift o).
Proof. intros s. apply I_refl. Qed.

Lemma preserves_emit (e : event) : preserves I (emit e).
Proof. intros s. apply I_emit. Qed.

Lemma preserves_print (l : line) : preserves I (print l).
Proof. intros s. apply I_emit. Qed.

Lemma preserves_input : preserves I input.
Proof. intros s. apply I_input. Qed.

Lemma preserves_bind {A B} (m : M A) (k : A -> M B) :
  preserves I m -> (forall a, preserves I (k a)) -> preserves I (bind m k).
Proof.
  intros Hm Hk s. unfold bind. specialize (Hm s).
  destruct (m s) as [[a|e|] s1]; cbn [snd] in *; try exact Hm.
  eapply I_trans; [exact Hm|apply Hk].
Qed.

Lemma preserves_try_except {A} (body : M A) (handles : exn -> bool) (handler : exn -> M A) :
  preserves I body -> (forall e, preserves I (handler e)) ->
  preserves I (try_except body handles handler).
Proof.
  intros Hb Hh s. unfold try_except. specialize (Hb s).
  destruct (body s) as [[a|e|] s1]; cbn [snd] in *; try exact Hb.
  destruct (handles e); [|exact Hb].
  eapply I_trans; [exact Hb|apply Hh].
Qed.

Lemma preserves_for_each {A} (xs : list A) (body : A -> M unit) :
  (forall x, preserves I (body x)) -> preserves I (for_each xs body).
Proof.
  intros Hb. induction xs as [|x xs IH]; cbn [for_each].
  - apply preserves_ret.
  - apply preserves_bind; auto.
Qed.

End Rules.

Ltac preserves_step :=
  lazymatch goal with
  | |- preserves _ (bind _ _) => apply preserves_bind; [..|intros ?]
  | |- preserves _ (ret _) => apply preserves_ret
  | |- preserves _ (raise _) => apply preserves_raise
  | |- preserves _ hang => apply preserves_hang
  | |- preserves _ (lift _) => apply preserves_lift
  | |- preserves _ (print _) => apply preserves_print
  | |- preserves _ (emit _) => apply preserves_emit
  | |- preserves _ input => apply preserves_input
  | |- preserves _ (try_except _ _ _) => apply preserves_try_except; [..|intros ?]
  | |- preserves _ (for_each _ _) => apply preserves_for_each; [..|intros ?]
  | |- preserves _ (if ?b then _ else _) => destruct b
  | |- preserves _ (match ?x with _ => _ end) => destruct x
  end; try assumption.

Ltac preserves_all := repeat preserves_step.

Section Demos.

Variable I : state -> state -> Prop.
Hypothesis I_refl : forall s, I s s.
Hypothesis I_trans : forall a b c, I a b -> I b c -> I a c.
Hypothesis I_emit : forall s e, I s (snd (emit e s)).
Hypothesis I_input : forall s, I s (snd (input s)).

Lemma preserves_subscribe_loop (announce : nat -> line) (handle : update -> M unit)
    (start_time : Q) (items : list (response * Q)) (fin : stream_end) (n : nat) :
  (forall u, preserves I (handle u)) ->
  preserves I (subscribe_loop (fun k => print (announce k)) handle start_time items fin n).
Proof.
  intros Hh. revert n. induction items as [|[r now] items IH]; intros n;
    cbn [subscribe_loop].
  - preserves_all.
  - preserves_step; [preserves_all|].
    preserves_step; [unfold handle_response; preserves_all; apply Hh|].
    preserves_all. apply IH.
Qed.

Lemma preserves_sample_update (u : update) : preserves I (sample_update u).
Proof. unfold sample_update. preserves_all. Qed.

Lemma preserves_on_change_update (u : update) : preserves I (on_change_update u).
Proof. unfold on_change_update. preserves_all. Qed.

Lemma preserves_show_counters (d : list (string * pyval)) : preserves I (show_counters d).
Proof. unfold show_counters. preserves_all. Qed.

End Demos.

Lemma stays_quiet_refl (s : state) : stays_quiet s s.
Proof. intros H. exact H. Qed.

Lemma stays_quiet_trans (a b c : state) :
  stays_quiet a b -> stays_quiet b c -> stays_quiet a c.
Proof. unfold stays_quiet. auto. Qed.

Lemma stays_quiet_emit (s : state) (e : event) : stays_quiet s (snd (emit e s)).
Proof. intros H. exact H. Qed.

Lemma stays_quiet_input (s : state) : stays_quiet s (snd (input s)).
Proof.
  unfold stays_quiet, quiet_inputs, input.
  destruct (inputs s) as [|o rest] eqn:E; cbn; rewrite ?E; [auto|].
  intros H. apply Forall_cons in H as [_ H]. exact H.
Qed.

Ltac quiet_setup :=
  pose proof stays_quiet_refl as I_refl;
  pose proof stays_quiet_trans as I_trans;
  pose proof stays_quiet_emit as I_emit;
  pose proof stays_quiet_input as I_input.

(** With quiet inputs, a last [input()] raises nothing of the [Exception]
    family. *)
Lemma input_quiet (s : state) (e : exn) :
  quiet_inputs s -> fst (input s) = Raise e -> is_Exception e = false.
Proof.
  unfold quiet_inputs, input. destruct (inputs s) as [|o rest]; cbn; [discriminate|].
  intros H%Forall_cons Ho. destruct H as [H _]. apply H, Ho.
Qed.

Lemma print_input_quiet (l : line) (s : state) (e : exn) :
  quiet_inputs s -> fst ((print l ;; input)%demo s) = Raise e -> is_Exception e = false.
Proof.
  intros Hq. unfold bind, print, emit. cbn [fst snd]. apply input_quiet. exact Hq.
Qed.

(** A [try] whose handlers print a line and wait for Enter lets no
    exception of the [Exception] family out when the inputs are quiet. *)
Lemma contained_try (body : M unit) (handles : exn -> bool) (l : exn -> line)
    (s : state) (e : exn) :
  (forall e', is_Exception e' = true -> handles e' = true) ->
  preserves stays_quiet body -> quiet_inputs s ->
  fst (try_except body handles (fun e' => print (l e') ;; input) s) = Raise e ->
  is_Exception e = false.
Proof.
  intros Hh Hb Hq. unfold try_except. specialize (Hb s Hq).
  destruct (body s) as [[a|e'|] s1]; cbn [fst snd] in *; try discriminate.
  destruct (handles e') eqn:He'.
  - apply print_input_quiet, Hb.
  - cbn [fst]. intros [= <-]. destruct (is_Exception e') eqn:E; [|reflexivity].
    rewrite (Hh e' E) in He'. discriminate.
Qed.

Lemma contained_try2 (body : M unit) (l1 : line) (l : exn -> line) (s : state) (e : exn) :
  preserves stays_quiet body -> quiet_inputs s ->
  fst (try_except2 body (print l1 ;; input) (fun e' => print (l e') ;; input) s) = Raise e ->
  is_Exception e = false.
Proof.
  intros Hb Hq. unfold try_except2, try_except. specialize (Hb s Hq).
  destruct (body s) as [[a|e'|] s1]; cbn [fst snd] in *; try discriminate.
  destruct e' as [c| |]; cbn.
  - apply print_input_quiet, Hb.
  - apply print_input_quiet, Hb.
  - intros [= <-]. reflexivity.
Qed.

(** X11: as long as no [input()] raises an exception of the [Exception]
    family, none of the operations of the demo object lets such an
    exception reach its caller, whatever the device answers: a malformed
    answer, a value of the wrong type or a transport error is reported by
    the operation itself. *)
Theorem operations_contain_exceptions (op : operation) (w : env) (s : state) (e : exn) :
  quiet_inputs s -> outcome_of op w s = Raise e -> is_Exception e = false.
Proof.
  intros Hq. quiet_setup. destruct op; cbn [outcome_of].
  - pose proof (RunMore.connect_cases w s) as Hc. cbv zeta in Hc. rewrite Hc.
    destruct (env_construct w) as [u|[c| |]|]; cbn [fst];
      [destruct (env_connect w) as [u'|[c| |]|]; cbn [fst]|..];
      try discriminate; intros [= <-]; reflexivity.
  - unfold demo_capabilities. apply contained_try; [auto| |exact Hq]. preserves_all.
  - unfold demo_get_single. apply contained_try; [auto| |exact Hq]. preserves_all.
    apply preserves_show_counters; assumption.
  - unfold demo_subscribe_sample. apply contained_try2; [|exact Hq].
    preserves_step. preserves_step; [|preserves_all].
    apply preserves_subscribe_loop; try assumption.
    intros u. apply preserves_sample_update; assumption.
  - unfold demo_subscribe_on_change. apply contained_try2; [|exact Hq].
    preserves_step. preserves_step; [|preserves_all].
    apply preserves_subscribe_loop; try assumption.
    intros u. apply preserves_on_change_update; assumption.
  - unfold demo_comparison. apply input_quiet, Hq.
  - apply RunMore.run_full_demo_raise.
Qed.

Lemma operations_contain_exceptions_witness :
  let w := {| env_construct := Ret tt;
              env_connect := Ret tt;
              env_capabilities := Raise KeyboardInterrupt;
              env_get := Ret None;
              env_subscribe := fun _ => Scenario.ended [];
              env_close := Ret tt |} in
  (quiet_inputs Scenario.start_state /\
   outcome_of OpCapabilities w Scenario.start_state = Raise KeyboardInterrupt) /\
  is_Exception KeyboardInterrupt = false.
Proof.
  intros w.
  assert (H1 : quiet_inputs Scenario.start_state) by constructor.
  assert (H2 : outcome_of OpCapabilities w Scenario.start_state = Raise KeyboardInterrupt)
    by reflexivity.
  split; [split; assumption|].
  exact (operations_contain_exceptions OpCapabilities w Scenario.start_state
           KeyboardInterrupt H1 H2).
Defined.

End Contain.

(** ** The one-shot demos *)

Module OneShot.

Import PyStr Frames Logger StreamingMore TelemetryDemo.

Lemma try_except_step {A B} (m : M A) (k : A -> M B) (handles : exn -> bool)
    (handler : exn -> M B) (s s1 : state) (a : A) :
  m s = (Ret a, s1) ->
  try_except (bind m k) handles handler s = try_except (k a) handles handler s1.
Proof. intros H. rewrite try_except_bind, H. reflexivity. Qed.

Lemma try_except_input (handles : exn -> bool) (handler : exn -> M unit)
    (s : state) (evs : list event) :
  next_input_returns s ->
  try_except input handles handler (logged s evs) = input (logged s evs).
Proof.
  intros Hi. unfold try_except. rewrite (input_returns s evs Hi). reflexivity.
Qed.

(** The loop over the models shown: one line per mapping. *)
Lemma for_each_models (ms : list pyval) (s : state) :
  Forall (fun m => is_dict m = true) ms ->
  for_each ms (fun model =>
    name <- lift (py_get model "name" (VStr "Unknown")) ;;
    version <- lift (py_get model "version" (VStr "?")) ;;
    print (LModel name version)) s
  = (Ret tt, logged s (map model_line ms)).
Proof.
  intros H. revert s. induction H as [|m ms Hm _ IH]; intros s; cbn [for_each map].
  - unfold ret. rewrite logged_nil. reflexivity.
  - destruct m; try discriminate Hm. unfold bind at 1. cbn.
    fold (logged s [EPrint (LModel (dict_get d "name" (VStr "Unknown"))
                                   (dict_get d "version" (VStr "?")))]).
    rewrite IH, logged_logged. reflexivity.
Qed.





(** Entries without a mapping as value print nothing. *)
Lemma for_each_skip (us : list update) (s : state) :
  Forall (fun u => has_dict_value u = false) us ->
  for_each us (fun u =>
    match upd_val u with
    | Some (VDict d) => show_counters d
    | _ => ret tt
    end) s = (Ret tt, s).
Proof.
  intros H. induction H as [|u us Hu _ IH]; cbn [for_each]; [reflexivity|].
  unfold bind at 1. unfold has_dict_value in Hu.
  destruct (upd_val u) as [[]|]; try discriminate Hu; exact IH.
Qed.



End OneShot.

(** ** More on the interface name and on what an update is taken for *)

Module InterfaceMore.

Import PyStr PyStrFacts InterfaceName Matching TelemetryDemo.

#[local] Arguments String.append !s1 s2 : simpl nomatch.

Lemma cut_first_unfold (sep s : string) :
  cut_first sep s =
    if String.prefix sep s then Some (EmptyString, drop (String.length sep) s)
    else match s with
         | EmptyString => None
         | String c s' =>
             match cut_first sep s' with
             | Some (b, a) => Some (String c b, a)
             | None => None
             end
         end.
Proof. destruct s; reflexivity. Qed.

Lemma cut_first_at (sep a : string) : cut_first sep (sep ++ a) = Some (EmptyString, a).
Proof.
  rewrite cut_first_unfold.
  assert (H : String.prefix sep (sep ++ a) = true) by (apply prefix_spec; eauto).
  rewrite H, drop_append. reflexivity.
Qed.

(** When no occurrence of the separator begins in [x] or at the character
    [b] that follows it, the leftmost cut lies in what comes after. *)
Lemma cut_first_past (sep x : string) (b : ascii) (rest : string) :
  (forall x1 x2 : string, x = (x1 ++ x2)%string ->
     String.prefix sep (x2 ++ String b rest) = false) ->
  cut_first sep (x ++ String b rest) =
    match cut_first sep rest with
    | Some (b', a) => Some ((x ++ String b b')%string, a)
    | None => None
    end.
Proof.
  induction x as [|c x IH]; intros H.
  - cbn [String.append]. rewrite cut_first_unfold.
    pose proof (H EmptyString EmptyString eq_refl) as Hp. cbn [String.append] in Hp.
    rewrite Hp. destruct (cut_first sep rest) as [[b' a]|]; reflexivity.
  - cbn [String.append]. rewrite cut_first_unfold.
    pose proof (H EmptyString (String c x) eq_refl) as Hp. cbn [String.append] in Hp.
    rewrite Hp, IH.
    + destruct (cut_first sep rest) as [[b' a]|]; reflexivity.
    + intros x1 x2 ->. apply (H (String c x1) x2). reflexivity.
Qed.

Lemma occurs_in_suffix (sub a b : string) : occurs sub b -> occurs sub (a ++ b).
Proof.
  intros (pre & post & ->). exists (a ++ pre)%string, post.
  rewrite append_assoc. reflexivity.
Qed.

(** No occurrence of [name=] begins in a text free of it when the text is
    followed by a character that [name=] does not hold. *)
Lemma name_blocked (x : string) (b : ascii) (rest : string) :
  ~ occurs "name=" x -> mem_char b "name=" = false ->
  forall x1 x2 : string, x = (x1 ++ x2)%string ->
    String.prefix "name=" (x2 ++ String b rest) = false.
Proof.
  intros Hx Hb x1 x2 ->.
  destruct (String.prefix "name=" (x2 ++ String b rest)) eqn:Hp; [|reflexivity].
  exfalso. apply prefix_spec in Hp as [t Ht].
  assert (Hx2 : ~ occurs "name=" x2)
    by (intros Ho; apply Hx, occurs_in_suffix, Ho).
  destruct x2 as [|c1 [|c2 [|c3 [|c4 [|c5 x2]]]]]; cbn in Ht; simplify_eq;
    try (cbn in Hb; discriminate Hb).
  apply Hx2. exists EmptyString, x2. reflexivity.
Qed.

(** The text before the leftmost one-character separator. *)
Lemma before_first_char (c : ascii) (v y : string) :
  ~ occurs (String c EmptyString) v ->
  before_first (String c EmptyString) (v ++ String c y) = v.
Proof.
  intros Hv. unfold before_first.
  assert (H : cut_first (String c EmptyString) (v ++ String c y) = Some (v, y)).
  { induction v as [|d v IH].
    - apply (cut_first_at (String c EmptyString) y).
    - cbn [String.append]. rewrite cut_first_unfold.
      destruct (String.prefix (String c EmptyString) (String d (v ++ String c y))) eqn:Hp.
      + exfalso. apply prefix_spec in Hp as [t Ht]. cbn in Ht. injection Ht as <- _.
        apply Hv. exists EmptyString, v. reflexivity.
      + rewrite IH; [reflexivity|].
        intros Ho. apply Hv. apply (occurs_in_suffix _ (String d EmptyString) v Ho). }
  rewrite H. reflexivity.
Qed.

Lemma before_first_absent (sep s : string) : ~ occurs sep s -> before_first sep s = s.
Proof.
  intros H%py_in_false%cut_first_None. unfold before_first. rewrite H. reflexivity.
Qed.

(** X15: for a path whose first [name=] is the key of a bracketed
    predicate, [...\[name=V\]...], the extracted interface name is [V]
    with the quote characters stripped from its ends, whatever precedes and
    follows the predicate, as long as [V] itself holds no closing bracket,
    no comma and no [name=]. *)
Theorem interface_name_of_keyed_path (pre v post : string) :
  ~ occurs "name=" pre ->
  ~ occurs "name=" v -> ~ occurs "]" v -> ~ occurs "," v ->
  interface_name (pre ++ "[name=" ++ v ++ "]" ++ post) = py_strip quote_chars v.
Proof.
  intros Hpre Hv1 Hv2 Hv3.
  set (path := (pre ++ "[name=" ++ v ++ "]" ++ post)%string).
  assert (Hcut : cut_first "name=" path = Some ((pre ++ "[")%string, (v ++ "]" ++ post)%string)).
  { unfold path.
    change ("[name=" ++ v ++ "]" ++ post)%string
      with (String "[" ("name=" ++ v ++ "]" ++ post))%string.
    rewrite (cut_first_past "name=" pre "[" _ (name_blocked pre "[" _ Hpre eq_refl)).
    rewrite cut_first_at. reflexivity. }
  assert (Hin : py_in "name=" path = true).
  { destruct (py_in "name=" path) eqn:E; [reflexivity|].
    apply cut_first_None in E. congruence. }
  destruct (interface_name_try_eq path Hin) as (pre' & rest & Hc & Htry).
  rewrite Hcut in Hc. injection Hc as <- <-.
  unfold interface_name. rewrite Htry. f_equal.
  assert (Hx : exists y, before_first "name=" (v ++ String "]" post)
                         = (v ++ String "]" y)%string).
  { unfold before_first.
    rewrite (cut_first_past "name=" v "]" post (name_blocked v "]" post Hv1 eq_refl)).
    destruct (cut_first "name=" post) as [[b' a]|]; eauto. }
  destruct Hx as [y ->].
  rewrite (before_first_char "]" v y Hv2).
  apply before_first_absent, Hv3.
Qed.

Lemma interface_name_of_keyed_path_witness :
  (~ occurs "name=" "/interfaces/interface" /\
   ~ occurs "name=" "'Ethernet3/1'" /\ ~ occurs "]" "'Ethernet3/1'" /\
   ~ occurs "," "'Ethernet3/1'") /\
  interface_name ("/interfaces/interface" ++ "[name=" ++ "'Ethernet3/1'" ++ "]"
                  ++ "/subinterfaces/subinterface[index=0]/state/name=x")
  = py_strip quote_chars "'Ethernet3/1'".
Proof.
  assert (H1 : ~ occurs "name=" "/interfaces/interface") by (apply py_in_false; reflexivity).
  assert (H2 : ~ occurs "name=" "'Ethernet3/1'") by (apply py_in_false; reflexivity).
  assert (H3 : ~ occurs "]" "'Ethernet3/1'") by (apply py_in_false; reflexivity).
  assert (H4 : ~ occurs "," "'Ethernet3/1'") by (apply py_in_false; reflexivity).
  split; [repeat split; assumption|].
  exact (interface_name_of_keyed_path "/interfaces/interface" "'Ethernet3/1'"
           "/subinterfaces/subinterface[index=0]/state/name=x" H1 H2 H3 H4).
Defined.

(** X16: an update whose stringified path holds no [name=], or neither
    [in-octets] nor [out-octets], is passed over by the SAMPLE handler
    without a line and without an exception, whatever its value, also a
    value of a type that the formatting of a counter would reject, and
    also when the path or the value is missing. *)
Theorem unattributed_update_is_ignored (u : update) (s : state) :
  (~ occurs "name=" (default EmptyString (upd_path u)) \/
   (~ occurs "in-octets" (default EmptyString (upd_path u)) /\
    ~ occurs "out-octets" (default EmptyString (upd_path u)))) ->
  sample_update u s = (Ret tt, s).
Proof.
  unfold sample_update. rewrite has_name_key_eq.
  intros [H1%py_in_false | [H2%py_in_false H3%py_in_false]].
  - rewrite H1. reflexivity.
  - rewrite H2, H3. destruct (py_in "name=" _); reflexivity.
Qed.

Lemma unattributed_update_is_ignored_witness :
  let u := {| upd_path := Some "/system/state/hostname"; upd_val := Some (VStr "spine1") |} in
  (~ occurs "name=" (default EmptyString (upd_path u)) \/
   (~ occurs "in-octets" (default EmptyString (upd_path u)) /\
    ~ occurs "out-octets" (default EmptyString (upd_path u)))) /\
  sample_update u Scenario.start_state = (Ret tt, Scenario.start_state).
Proof.
  intros u.
  assert (H : ~ occurs "name=" (default EmptyString (upd_path u)) \/
              (~ occurs "in-octets" (default EmptyString (upd_path u)) /\
               ~ occurs "out-octets" (default EmptyString (upd_path u))))
    by (right; split; apply py_in_false; reflexivity).
  split; [exact H|].
  exact (unattributed_update_is_ignored u Scenario.start_state H).
Defined.

End InterfaceMore.
